(** * GPTAbleton: from a generated text table to AbletonOSC messages

    A shallow embedding of [gpt_to_ableton.py].  The script cuts three
    tables (melody, drum, bass) out of a text, filters and splits their
    rows, and sends OSC messages that recreate three clips and fill them
    with notes.

    Modelling choices.
    - A Python [str] is a [string]; its characters are the code points
      below 256.
    - A Python [int] is a [Z].  A Python [float] is an element of the type
      of a [Numeric] structure, which also carries the builtins [float(s)],
      [int(s)], [+] on floats and [round(x, n)].  The functions of the
      script are written once, over any such structure; [Binary64] is the
      IEEE 754 double precision instance.
    - An exception is a value of [exn]; a function that can raise returns
      [exn + A].
    - [ableton_client.send_message] appends to the list of messages sent so
      far and raises nothing; the functions that send are written in the
      monad [M], which threads that list and stops at the first exception.
    - The text of the response is the input of [main]: the request that
      produces it is not modelled. *)

From Stdlib Require Import ZArith List String Ascii Bool Lia Permutation.
From Stdlib Require Import DecimalString SpecFloat.
Import ListNotations.

Open Scope string_scope.
Open Scope Z_scope.

(** ** Exceptions *)

Inductive exn : Type :=
| ValueError
| IndexError.

Definition raises (A : Type) : Type := (exn + A)%type.

Definition of_option {A : Type} (e : exn) (o : option A) : raises A :=
  match o with
  | Some a => inr a
  | None => inl e
  end.

Definition bind_raises {A B : Type} (x : raises A) (f : A -> raises B) : raises B :=
  match x with
  | inl e => inl e
  | inr a => f a
  end.

Declare Scope raises_scope.
Delimit Scope raises_scope with raises.
Notation "x <- c ;; k" := (bind_raises c (fun x => k))
  (at level 61, c at next level, right associativity) : raises_scope.

(** ** Python string operations used by the script *)

Module PyStr.

(** [s[n:]] for [0 <= n]. *)
Fixpoint skip (n : nat) (s : string) : string :=
  match n, s with
  | O, _ => s
  | S n', String _ s' => skip n' s'
  | S _, EmptyString => EmptyString
  end.

(** [s[a:b]] for [0 <= a] and [0 <= b]. *)
Definition slice (a b : nat) (s : string) : string :=
  substring a (b - a) s.

(** [s.startswith(p)]. *)
Definition startswith (s p : string) : bool := prefix p s.

(** [sub in s]. *)
Fixpoint contains (sub s : string) : bool :=
  prefix sub s ||
  match s with
  | EmptyString => false
  | String _ s' => contains sub s'
  end.

(** The highest index at which [sub] occurs in [s], as [s.rfind(sub)]. *)
Fixpoint rfind (sub s : string) : option nat :=
  match s with
  | EmptyString => if prefix sub s then Some O else None
  | String _ s' =>
      match rfind sub s' with
      | Some i => Some (S i)
      | None => if prefix sub s then Some O else None
      end
  end.

(** [s.rindex(sub, start)] for [0 <= start]: the highest index [i >= start]
    with [s[i:i+len(sub)] == sub], and [ValueError] when there is none. *)
Definition rindex (s sub : string) (start : nat) : raises nat :=
  if (String.length s <? start)%nat then inl ValueError
  else match rfind sub (skip start s) with
       | Some i => inr (start + i)%nat
       | None => inl ValueError
       end.

(** Splitting at every character that satisfies [sep]: [s.split(c)] for a
    one-character [c], and [re.split] for an alternation of single
    characters.  Two adjacent separators enclose an empty field. *)
Fixpoint split_on (sep : ascii -> bool) (s : string) : list string :=
  match s with
  | EmptyString => [EmptyString]
  | String c s' =>
      if sep c then EmptyString :: split_on sep s'
      else match split_on sep s' with
           | f :: fs => String c f :: fs
           | [] => [String c EmptyString]
           end
  end.

Definition newline : ascii := ascii_of_nat 10.
Definition tab : ascii := ascii_of_nat 9.
Definition space : ascii := ascii_of_nat 32.

(** [s.split("\n")]. *)
Definition split_lines (s : string) : list string :=
  split_on (Ascii.eqb newline) s.

(** [re.split("\t| ", s)]: the pattern matches one tab or one space. *)
Definition is_tab_or_space (c : ascii) : bool :=
  Ascii.eqb c tab || Ascii.eqb c space.

Definition re_split_tab_space (s : string) : list string :=
  split_on is_tab_or_space s.

(** [s.split(sep, 1)[1]] for a non-empty [sep]: what follows the first
    occurrence of [sep]; [IndexError] when [sep] does not occur. *)
Fixpoint after_first (sep s : string) : raises string :=
  if prefix sep s then inr (skip (String.length sep) s)
  else match s with
       | EmptyString => inl IndexError
       | String _ s' => after_first sep s'
       end.

(** [str(n)] for an integer [n]. *)
Definition str (n : Z) : string := NilZero.string_of_int (Z.to_int n).

(** [range(a, b)]. *)
Definition range (a b : Z) : list Z :=
  map (fun i => a + Z.of_nat i) (seq 0 (Z.to_nat (b - a))).

(** [l.index(x)] on a list of strings. *)
Fixpoint list_index (x : string) (l : list string) : raises nat :=
  match l with
  | [] => inl ValueError
  | y :: l' =>
      if String.eqb y x then inr O
      else match list_index x l' with
           | inr i => inr (S i)
           | inl e => inl e
           end
  end.

(** [l[i]] for [0 <= i]. *)
Definition getitem {A : Type} (l : list A) (i : nat) : raises A :=
  of_option IndexError (nth_error l i).

End PyStr.

(** ** Numbers

    What the script needs from Python's numbers: the conversions [float(s)]
    and [int(s)] of a string ([None] stands for the [ValueError] they
    raise), the sum of two floats and [round(x, ndigits)] for
    [0 <= ndigits]. *)

Class Numeric : Type := {
  float : Type;
  py_float : string -> option float;
  py_int : string -> option Z;
  float_add : float -> float -> float;
  py_round : float -> N -> float
}.

(** ** IEEE 754 double precision

    The floats of CPython are binary64 numbers: [spec_float] with a
    precision of 53 bits and [emax = 1024], added by [SFadd].  A decimal
    literal denotes the double nearest to its exact value, ties to even; it
    is computed here as the quotient of two integers by [SFdiv], which
    rounds in this way.  The literals are those of the grammar of [float]
    and [int] in the reference of the Python library. *)

Module Binary64.

Definition prec : Z := 53.
Definition emax : Z := 1024.

Definition add : spec_float -> spec_float -> spec_float := SFadd prec emax.

(** The double nearest to [(-1)^s * n / d], for [0 <= n] and [0 < d]. *)
Definition of_ratio (s : bool) (n d : Z) : spec_float :=
  match n, d with
  | Zpos pn, Zpos pd =>
      SFdiv prec emax (S754_finite s pn 0) (S754_finite false pd 0)
  | _, _ => S754_zero s
  end.

(** The double nearest to [(-1)^s * n * 10^e], for [0 <= n]. *)
Definition of_decimal (s : bool) (n e : Z) : spec_float :=
  if 0 <=? e then of_ratio s (n * 10 ^ e) 1 else of_ratio s n (10 ^ (- e)).

(** The integer nearest to [n / d], ties to the even one, for [0 <= n]
    and [0 < d]. *)
Definition div_half_even (n d : Z) : Z :=
  let q := n / d in
  let r := n mod d in
  match 2 * r ?= d with
  | Lt => q
  | Gt => q + 1
  | Eq => if Z.even q then q else q + 1
  end.

(** [round(x, ndigits)]: the exact value of [x] is rounded to [ndigits]
    decimal places, ties to even, and the decimal obtained is converted
    back to a double.  Beyond 323 places CPython returns [x] itself, as
    it does for infinities and nan. *)
Definition round (x : spec_float) (ndigits : N) : spec_float :=
  if (323 <? ndigits)%N then x
  else
    match x with
    | S754_finite s m e =>
        let scale := 10 ^ Z.of_N ndigits in
        let q := if 0 <=? e then Zpos m * 2 ^ e * scale
                 else div_half_even (Zpos m * scale) (2 ^ (- e)) in
        of_ratio s q scale
    | _ => x
    end.

(** *** The literals accepted by [float(s)] and [int(s)] *)

(** The white space that [float(s)] and [int(s)] strip, among the code
    points below 256: tab to carriage return, space, U+0085 and U+00A0.  The
    separators U+001C to U+001F are not stripped. *)
Definition is_space (c : ascii) : bool :=
  let n := nat_of_ascii c in
  ((9 <=? n) && (n <=? 13) || (n =? 32) || (n =? 133) || (n =? 160))%nat.

Definition is_digit (c : ascii) : bool :=
  let n := nat_of_ascii c in ((48 <=? n) && (n <=? 57))%nat.

Definition digit_val (c : ascii) : Z := Z.of_nat (nat_of_ascii c) - 48.

Definition lower (c : ascii) : ascii :=
  let n := nat_of_ascii c in
  if ((65 <=? n) && (n <=? 90))%nat then ascii_of_nat (n + 32) else c.

Fixpoint lstrip (l : list ascii) : list ascii :=
  match l with
  | c :: l' => if is_space c then lstrip l' else l
  | [] => []
  end.

Definition strip (l : list ascii) : list ascii :=
  rev (lstrip (rev (lstrip l))).

(** The rest of a [digitpart] after one of its digits: digits, each of
    them possibly preceded by one underscore. *)
Fixpoint digit_run (l : list ascii) : list Z * list ascii :=
  match l with
  | c :: l' =>
      if is_digit c then
        let (ds, r) := digit_run l' in (digit_val c :: ds, r)
      else if Ascii.eqb c "_" then
        match l' with
        | c2 :: l'' =>
            if is_digit c2 then
              let (ds, r) := digit_run l'' in (digit_val c2 :: ds, r)
            else ([], l)
        | [] => ([], l)
        end
      else ([], l)
  | [] => ([], [])
  end.

(** A [digitpart] at the head of [l], if there is one: its digits and
    what follows it. *)
Definition digitpart (l : list ascii) : list Z * list ascii :=
  match l with
  | c :: l' =>
      if is_digit c then
        let (ds, r) := digit_run l' in (digit_val c :: ds, r)
      else ([], l)
  | [] => ([], [])
  end.

Definition of_digits (ds : list Z) : Z :=
  fold_left (fun acc d => 10 * acc + d) ds 0.

(** An optional sign: [true] for a minus. *)
Definition sign (l : list ascii) : bool * list ascii :=
  match l with
  | c :: l' =>
      if Ascii.eqb c "-" then (true, l')
      else if Ascii.eqb c "+" then (false, l')
      else (false, l)
  | [] => (false, [])
  end.

(** The most digits that [int(s)] accepts (CPython 3.11 and later, as
    configured by default). *)
Definition int_max_str_digits : Z := 4300.

(** [int(s)] in base 10: white space around an optional sign and a
    [digitpart] of at most [int_max_str_digits] digits, the underscores not
    counted. *)
Definition int_of_string (s : string) : option Z :=
  let (neg, l) := sign (strip (list_ascii_of_string s)) in
  match digitpart l with
  | ((_ :: _) as ds, []) =>
      if Z.of_nat (List.length ds) <=? int_max_str_digits
      then Some (if neg then - of_digits ds else of_digits ds)
      else None
  | _ => None
  end.

(** An optional exponent at the end of a literal. *)
Definition exponent (l : list ascii) : option Z :=
  match l with
  | [] => Some 0
  | c :: l' =>
      if Ascii.eqb (lower c) "e" then
        let (neg, l'') := sign l' in
        match digitpart l'' with
        | ((_ :: _) as ds, []) =>
            Some (if neg then - of_digits ds else of_digits ds)
        | _ => None
        end
      else None
  end.

(** [floatnumber]: digits with an optional point, then an optional
    exponent; the mantissa has at least one digit.  The result is the
    pair [(n, e)] of the literal [n * 10^e]. *)
Definition floatnumber (l : list ascii) : option (Z * Z) :=
  let (ip, r1) := digitpart l in
  let (fp, r2) :=
    match r1 with
    | c :: r => if Ascii.eqb c "." then digitpart r else ([], r1)
    | [] => ([], [])
    end in
  match ip, fp with
  | [], [] => None
  | _, _ =>
      match exponent r2 with
      | Some x => Some (of_digits (ip ++ fp)%list, x - Z.of_nat (List.length fp))
      | None => None
      end
  end.

Definition is_word (w : string) (l : list ascii) : bool :=
  String.eqb (string_of_list_ascii (map lower l)) w.

(** [float(s)]: white space around an optional sign and a [floatnumber],
    [inf], [infinity] or [nan] in any case. *)
Definition float_of_string (s : string) : option spec_float :=
  let (neg, l) := sign (strip (list_ascii_of_string s)) in
  if is_word "inf" l || is_word "infinity" l then Some (S754_infinity neg)
  else if is_word "nan" l then Some S754_nan
  else match floatnumber l with
       | Some (n, e) => Some (of_decimal neg n e)
       | None => None
       end.

(** The double [n * 2^(-k)] for [0 <= n]; it is exact when [n < 2^53] and
    [0 <= k <= 1074]. *)
Definition dyadic (k n : Z) : spec_float := binary_normalize prec emax n (- k) false.

(** A mantissa with no bit shifted out of it. *)
Definition exact_record (m : Z) : shr_record :=
  {| shr_m := m; shr_r := false; shr_s := false |}.

#[export] Instance numeric : Numeric := {|
  float := spec_float;
  py_float := float_of_string;
  py_int := int_of_string;
  float_add := add;
  py_round := round
|}.

End Binary64.

(** ** The script *)

Import PyStr.

(** *** Constants (lines 14-28) *)

Definition PITCH : string := "pitch".
Definition START_TIME : string := "start_time".
Definition VELOCITY : string := "velocity".
Definition DURATION : string := "duration".
Definition SCHEMA : list string := [PITCH; START_TIME; DURATION; VELOCITY].
Definition VALID_MIDI_NOTES : list Z := range 30 91.
Definition SONG_TEMPO : Z := 60.

Definition MELODY : string := "Melody".
Definition DRUM : string := "Drum".
Definition BASS : string := "Bass".

(** A row of a table: the fields of one line. *)
Definition row : Type := list string.

(** [find_substring] (lines 53-60): the text between two keywords.  Only
    [ValueError] is caught. *)
Definition find_substring (string start end_ : String.string)
  : raises String.string :=
  let body : raises String.string :=
    (i <- rindex string start 0 ;;
     let s := (i + String.length start)%nat in
     e <- rindex string end_ s ;;
     inr (slice s e string))%raises in
  match body with
  | inl ValueError => inr ""
  | r => r
  end.

(** [parse_table_to_list] (lines 63-72): the rows of a text table.  [None]
    is Python's [None], returned when [data] is the empty string. *)
Definition parse_table_to_list (data : string) (valid_midi_notes : list Z)
  : option (list row) :=
  if negb (String.eqb data "") then
    let data :=
      map re_split_tab_space
        (filter
           (fun row =>
              negb (String.eqb row "") &&
              existsb (fun note => startswith row (str note)) valid_midi_notes)
           (split_lines data)) in
    let data :=
      filter (fun i => (List.length SCHEMA <=? List.length i)%nat) data in
    Some data
  else None.

(** [not data], for the value returned by [parse_table_to_list]. *)
Definition falsy (data : option (list row)) : bool :=
  match data with
  | None | Some [] => true
  | Some (_ :: _) => false
  end.

Definition rows_of (data : option (list row)) : list row :=
  match data with
  | Some l => l
  | None => []
  end.

(** What happened in a run of the script: it reached its end, it left
    through [exit()] after [warnings.warn(w)], or an exception that nothing
    catches ended it. *)
Inductive outcome : Type :=
| Finished
| Exited (warning : string)
| Uncaught (e : exn).

(** The messages given to [ableton_client.send_message], by address:
    [/live/song/set/tempo], [/live/clip_slot/delete_clip],
    [/live/clip_slot/create_clip] and [/live/clip/add/notes], with their
    arguments in the order of the tuple sent.  [F] is the type of floats. *)
Inductive message (F : Type) : Type :=
| set_tempo (tempo : Z)
| delete_clip (track clip : Z)
| create_clip (track clip : Z) (length : F)
| add_notes (track clip pitch : Z) (start_time duration : F)
            (velocity mute : Z).

Arguments set_tempo {F} tempo.
Arguments delete_clip {F} track clip.
Arguments create_clip {F} track clip length.
Arguments add_notes {F} track clip pitch start_time duration velocity mute.

Section Script.

Context {num : Numeric}.

(** [float(s)] and [int(s)]. *)
Definition float_ (s : string) : raises float := of_option ValueError (py_float s).
Definition int_ (s : string) : raises Z := of_option ValueError (py_int s).

(** [row[SCHEMA.index(name)]]. *)
Definition field (r : row) (name : string) : raises string :=
  (i <- list_index name SCHEMA ;; getitem r i)%raises.

(** Computations that send messages and can raise: the messages sent so
    far are threaded, and kept when an exception is raised. *)
Definition M (A : Type) : Type :=
  list (message float) -> raises A * list (message float).

Definition ret {A : Type} (a : A) : M A := fun sent => (inr a, sent).

Definition bind {A B : Type} (m : M A) (f : A -> M B) : M B :=
  fun sent =>
    match m sent with
    | (inr a, sent') => f a sent'
    | (inl e, sent') => (inl e, sent')
    end.

Definition lift {A : Type} (x : raises A) : M A := fun sent => (x, sent).

Definition send_message (msg : message float) : M unit :=
  fun sent => (inr tt, sent ++ [msg])%list.

End Script.

Declare Scope M_scope.
Delimit Scope M_scope with M.
Notation "x <- c ;; k" := (bind c (fun x => k))
  (at level 61, c at next level, right associativity) : M_scope.
Notation "c ;; k" := (bind c (fun _ => k))
  (at level 61, right associativity) : M_scope.

Section Sequencer.

Context {num : Numeric}.

(** The loop of [calculate_pattern_duration]: [t += float(row[...])]. *)
Fixpoint add_durations (data : list row) (t : float) : raises float :=
  match data with
  | [] => inr t
  | row :: rest =>
      (tok <- field row DURATION ;;
       duration <- float_ tok ;;
       add_durations rest (float_add t duration))%raises
  end.

(** [calculate_pattern_duration] (lines 75-81): the sum of the clip
    durations. *)
Definition calculate_pattern_duration (data : list row) : raises float :=
  (row0 <- getitem data 0 ;;
   tok <- field row0 START_TIME ;;
   t <- float_ tok ;;
   t <- add_durations data t ;;
   inr (py_round t 4))%raises.

(** [initiate_clips] (lines 84-103): sets the tempo and recreates the three
    clips. *)
Definition initiate_clips (song_tempo : Z) (melody_data drum_data bass_data : list row)
  : M unit :=
  (send_message (set_tempo song_tempo) ;;
   melody_pattern_len <- lift (calculate_pattern_duration melody_data) ;;
   drum_pattern_len <- lift (calculate_pattern_duration drum_data) ;;
   bass_pattern_len <- lift (calculate_pattern_duration bass_data) ;;
   send_message (delete_clip 0 0) ;;
   send_message (create_clip 0 0 melody_pattern_len) ;;
   send_message (delete_clip 1 0) ;;
   send_message (create_clip 1 0 drum_pattern_len) ;;
   send_message (delete_clip 2 0) ;;
   send_message (create_clip 2 0 bass_pattern_len))%M.

(** One of the three loops of [send_events] (lines 111-118, 122-129 and
    133-140), for the track [track]. *)
Fixpoint send_rows (track : Z) (data : list row) (pointer : float) : M unit :=
  match data with
  | [] => ret tt
  | row :: rest =>
      (pitch <- lift (tok <- field row PITCH ;; int_ tok)%raises ;;
       velocity <- lift (tok <- field row VELOCITY ;; int_ tok)%raises ;;
       duration <- lift (tok <- field row DURATION ;; float_ tok)%raises ;;
       send_message (add_notes track 0 pitch pointer duration velocity 0) ;;
       send_rows track rest (float_add pointer duration))%M
  end.

(** One of the three blocks of [send_events] (lines 109, 120 and 131):
    [if data: ...]. *)
Definition send_track (track : Z) (data : list row) : M unit :=
  match data with
  | [] => ret tt
  | row0 :: _ =>
      (pointer <- lift (tok <- field row0 START_TIME ;; float_ tok)%raises ;;
       send_rows track data pointer)%M
  end.

(** [send_events] (lines 106-140): the notes of the three tables. *)
Definition send_events (melody_data drum_data bass_data : list row) : M unit :=
  (send_track 0 melody_data ;;
   send_track 1 drum_data ;;
   send_track 2 bass_data)%M.

(** The two calls that end the script (lines 168-170). *)
Definition sequence (song_tempo : Z) (melody_data drum_data bass_data : list row)
  : M unit :=
  (initiate_clips song_tempo melody_data drum_data bass_data ;;
   send_events melody_data drum_data bass_data)%M.

(** The body of the script (lines 148-170), from the text of the response
    on: the outcome, and the messages sent to the client. *)
Definition main (response_text : string) : outcome * list (message float) :=
  if negb (contains MELODY response_text)
     || negb (contains DRUM response_text)
     || negb (contains BASS response_text)
  then (Exited "Incomplete GPT response. Try again.", [])
  else
    match (melody <- find_substring response_text MELODY DRUM ;;
           drum <- find_substring response_text DRUM BASS ;;
           bass <- after_first BASS response_text ;;
           inr (parse_table_to_list melody VALID_MIDI_NOTES,
                parse_table_to_list drum VALID_MIDI_NOTES,
                parse_table_to_list bass VALID_MIDI_NOTES))%raises with
    | inl e => (Uncaught e, [])
    | inr (melody_data, drum_data, bass_data) =>
        if falsy melody_data || falsy drum_data || falsy bass_data
        then (Exited "Incorrect GPT response MIDI note format. Try again.", [])
        else
          match sequence SONG_TEMPO (rows_of melody_data) (rows_of drum_data)
                  (rows_of bass_data) [] with
          | (inr _, sent) => (Finished, sent)
          | (inl e, sent) => (Uncaught e, sent)
          end
    end.

End Sequencer.

(** ** Notions used to state the properties *)

(** [sub] occurs in [s] at index [i]. *)
Definition occurs_at (sub s : string) (i : nat) : Prop :=
  exists pre post, s = pre ++ sub ++ post /\ String.length pre = i.

(** [i] is the index of the last occurrence of [sub] in [s] among those at
    index [from] or later. *)
Definition last_occurrence (sub s : string) (from i : nat) : Prop :=
  occurs_at sub s i /\ (from <= i)%nat /\
  forall j, occurs_at sub s j -> (from <= j)%nat -> (j <= i)%nat.

(** No character of [s] satisfies [sep]. *)
Fixpoint free_of (sep : ascii -> bool) (s : string) : bool :=
  match s with
  | EmptyString => true
  | String c s' => negb (sep c) && free_of sep s'
  end.

(** A token: a string without tab, space or newline. *)
Definition token (s : string) : bool :=
  free_of is_tab_or_space s && free_of (Ascii.eqb newline) s.

(** A first field followed by fields that are each preceded by one
    separator character. *)
Fixpoint join_fields (first : string) (rest : list (ascii * string)) : string :=
  match rest with
  | [] => first
  | (c, f) :: rest' => first ++ String c (join_fields f rest')
  end.

(** The guard of [parse_table_to_list] in words: the line is not empty and
    begins with the decimal writing of one of the notes. *)
Definition candidate (valid_midi_notes : list Z) (line : string) : Prop :=
  line <> "" /\
  exists note rest, In note valid_midi_notes /\ line = str note ++ rest.

(** The numbers that [send_events] reads in a row.  [F] is the type of
    floats. *)
Record note (F : Type) : Type := {
  pitch : Z;
  velocity : Z;
  duration : F
}.

Arguments pitch {F} n.
Arguments velocity {F} n.
Arguments duration {F} n.
Arguments Build_note {F} pitch velocity duration.

Section Words.

Context {num : Numeric}.

(** The conversions of one turn of the loops of [send_events], in their
    order. *)
Definition note_of_row (r : row) : raises (note float) :=
  (p <- (tok <- field r PITCH ;; int_ tok) ;;
   v <- (tok <- field r VELOCITY ;; int_ tok) ;;
   d <- (tok <- field r DURATION ;; float_ tok) ;;
   inr {| pitch := p; velocity := v; duration := d |})%raises.

(** The notes of a table, or the first exception that a row raises. *)
Fixpoint notes_of (data : list row) : raises (list (note float)) :=
  match data with
  | [] => inr []
  | r :: rest =>
      (n <- note_of_row r ;; ns <- notes_of rest ;; inr (n :: ns))%raises
  end.

(** The notes of the rows that precede the first row that raises. *)
Fixpoint converted (data : list row) : list (note float) :=
  match data with
  | [] => []
  | r :: rest =>
      match note_of_row r with
      | inr n => n :: converted rest
      | inl _ => []
      end
  end.

(** The start time of the first row. *)
Definition start_of (data : list row) : raises float :=
  (row0 <- getitem data 0 ;; tok <- field row0 START_TIME ;; float_ tok)%raises.

(** The durations of the rows. *)
Fixpoint durations_of (data : list row) : raises (list float) :=
  match data with
  | [] => inr []
  | r :: rest =>
      (tok <- field r DURATION ;;
       d <- float_ tok ;;
       ds <- durations_of rest ;;
       inr (d :: ds))%raises
  end.

(** A table whose first start time is [start] and whose rows are the notes
    [notes]: every field that is read converts.  Such a table has a first
    row. *)
Definition track_of (data : list row) (start : float) (notes : list (note float))
  : Prop :=
  start_of data = inr start /\ notes_of data = inr notes.

(** The table passed the guards of the script: it is not empty and its rows
    have at least four fields. *)
Definition guarded (data : list row) : Prop :=
  data <> [] /\ Forall (fun r => (4 <= List.length r)%nat) data.

(** A field that the script converts does not convert: the start time of
    the first row, or the pitch, the velocity or the duration of a row. *)
Definition unconvertible (data : list row) : Prop :=
  (exists e, start_of data = inl e) \/
  (exists r e, In r data /\ note_of_row r = inl e).

(** The pattern duration: the start time plus the durations, added one
    after the other in the order of the rows, and rounded to 4 digits. *)
Definition pattern_duration (start : float) (durations : list float) : float :=
  py_round (fold_left float_add durations start) 4.

(** The messages that recreate the clip of a track. *)
Definition clip_messages (track : Z) (length : float) : list (message float) :=
  [delete_clip track 0; create_clip track 0 length].

(** One message per note, in order; each carries the pointer, which then
    advances by the duration of the note. *)
Fixpoint note_messages (track : Z) (notes : list (note float)) (pointer : float)
  : list (message float) :=
  match notes with
  | [] => []
  | n :: rest =>
      add_notes track 0 (pitch n) pointer (duration n) (velocity n) 0
      :: note_messages track rest (float_add pointer (duration n))
  end.

Definition is_add_notes (msg : message float) : Prop :=
  match msg with
  | add_notes _ _ _ _ _ _ _ => True
  | _ => False
  end.

End Words.

(** ** Responses and tables used as examples *)

Module Example.

(** A complete response. *)
Definition response : string :=
"Melody
60 0.0 0.5 100
64 0.5 0.5 100
Drum
36 0.0 1.0 120
Bass
40 0.0 1.0 90".

Definition melody : list row :=
  [["60"; "0.0"; "0.5"; "100"]; ["64"; "0.5"; "0.5"; "100"]].
Definition drum : list row := [["36"; "0.0"; "1.0"; "120"]].
Definition bass : list row := [["40"; "0.0"; "1.0"; "90"]].

(** The duration of the first melody row is not a number. *)
Definition response_bad_duration : string :=
"Melody
60 0.0 abc 100
Drum
36 0.0 1.0 120
Bass
40 0.0 1.0 90".

Definition melody_bad_duration : list row := [["60"; "0.0"; "abc"; "100"]].

(** The start time of the second melody row is not a number. *)
Definition response_bad_start : string :=
"Melody
60 0.0 0.5 100
64 abc 0.5 100
Drum
36 0.0 1.0 120
Bass
40 0.0 1.0 90".

Definition melody_bad_start : list row :=
  [["60"; "0.0"; "0.5"; "100"]; ["64"; "abc"; "0.5"; "100"]].

(** The velocity of the second melody row is not a number. *)
Definition response_bad_velocity : string :=
"Melody
60 0.0 0.5 100
64 0.5 0.5 loud
Drum
36 0.0 1.0 120
Bass
40 0.0 1.0 90".

Definition melody_bad_velocity : list row :=
  [["60"; "0.0"; "0.5"; "100"]; ["64"; "0.5"; "0.5"; "loud"]].

(** The pitch of the melody row is 300, which is not a valid note. *)
Definition response_pitch_300 : string :=
"Melody
300 0.0 0.5 100
Drum
36 0.0 1.0 120
Bass
40 0.0 1.0 90".

(** The first field of the melody row is not a number. *)
Definition response_pitch_60abc : string :=
"Melody
60abc 0.0 0.5 100
Drum
36 0.0 1.0 120
Bass
40 0.0 1.0 90".

(** A response without the drum table. *)
Definition response_no_drum : string :=
"Melody
60 0.0 0.5 100
Bass
40 0.0 1.0 90".

(** The doubles 0.0, 0.5 and 1.0. *)
Definition zero : spec_float := S754_zero false.
Definition half : spec_float := Binary64.of_decimal false 5 (-1).
Definition one : spec_float := Binary64.of_decimal false 1 0.

End Example.

(** ** Notions used to state further properties *)

(** The line of a row: its fields with one space between them. *)
Definition unparse_row (r : row) : string := String.concat " " r.

(** The text of a table: the lines of its rows with one newline between
    them. *)
Definition unparse (rows : list row) : string :=
  String.concat (String newline "") (map unparse_row rows).

(** [msg] adds a note to the clip 0 of the track [track], not muted. *)
Definition on_track {F : Type} (track : Z) (msg : message F) : Prop :=
  match msg with
  | add_notes t c _ _ _ _ mute => t = track /\ c = 0 /\ mute = 0
  | _ => False
  end.

(** The script reads the same from two tables: the pitch, the velocity and
    the duration of every row, and the start time of the first row. *)
Definition same_reads (data data' : list row) : Prop :=
  Forall2
    (fun r r' =>
       field r PITCH = field r' PITCH /\
       field r VELOCITY = field r' VELOCITY /\
       field r DURATION = field r' DURATION) data data' /\
  field (hd [] data) START_TIME = field (hd [] data') START_TIME.

(** * Properties *)

(** ** Strings *)

Section StringFacts.

Lemma append_nil_r (s : string) : s ++ "" = s.
Proof. induction s; simpl; congruence. Qed.

Lemma append_assoc (a b c : string) : (a ++ b) ++ c = a ++ b ++ c.
Proof. induction a; simpl; congruence. Qed.

Lemma length_append (a b : string) :
  String.length (a ++ b) = (String.length a + String.length b)%nat.
Proof. induction a; simpl; congruence. Qed.

Lemma prefix_append (p s : string) : prefix p (p ++ s) = true.
Proof.
  induction p as [|c p IH]; simpl.
  - destruct s; reflexivity.
  - destruct (ascii_dec c c); [exact IH | congruence].
Qed.

Lemma prefix_inv (p s : string) :
  prefix p s = true -> exists post, s = p ++ post.
Proof.
  revert s; induction p as [|c p IH]; intros s H.
  - exists s; reflexivity.
  - destruct s as [|d s]; simpl in H; [discriminate|].
    destruct (ascii_dec c d) as [->|]; [|discriminate].
    destruct (IH s H) as [post ->]. exists post; reflexivity.
Qed.

Lemma prefix_iff (p s : string) :
  prefix p s = true <-> exists post, s = p ++ post.
Proof.
  split; [apply prefix_inv | intros [post ->]; apply prefix_append].
Qed.

Lemma skip_append (a b : string) : skip (String.length a) (a ++ b) = b.
Proof. induction a; simpl; [destruct b; reflexivity | assumption]. Qed.

Lemma skip_length (n : nat) (s : string) :
  String.length (skip n s) = (String.length s - n)%nat.
Proof.
  revert s; induction n as [|n IH]; intros [|c s]; simpl; auto.
Qed.

(** A string is what [skip] leaves, after a prefix of the length
    skipped. *)
Lemma skip_split (n : nat) (s : string) :
  (n <= String.length s)%nat ->
  exists pre, s = pre ++ skip n s /\ String.length pre = n.
Proof.
  revert s; induction n as [|n IH]; intros s Hn.
  - exists ""; split; reflexivity.
  - destruct s as [|c s]; simpl in Hn; [lia|].
    destruct (IH s) as (pre & Hs & Hl); [lia|].
    exists (String c pre); simpl; split; congruence.
Qed.

(** Two ways of cutting one string: the shorter head is a prefix of the
    longer one. *)
Lemma append_eq_split (x a y b : string) :
  x ++ a = y ++ b -> (String.length x <= String.length y)%nat ->
  exists m, y = x ++ m /\ a = m ++ b.
Proof.
  revert y; induction x as [|c x IH]; intros y H Hl.
  - exists y; split; [reflexivity | exact H].
  - destruct y as [|d y]; simpl in Hl; [lia|].
    simpl in H; injection H as -> H.
    destruct (IH y H) as (m & -> & ->); [lia|].
    exists m; split; reflexivity.
Qed.

Lemma slice_append (x mid y : string) :
  slice (String.length x) (String.length x + String.length mid)
    (x ++ mid ++ y) = mid.
Proof.
  unfold slice.
  replace (String.length x + String.length mid - String.length x)%nat
    with (String.length mid) by lia.
  induction x as [|c x IH]; simpl; [|exact IH].
  clear; induction mid as [|c mid IH]; simpl.
  - destruct y; reflexivity.
  - f_equal; exact IH.
Qed.

Lemma occurs_at_bound (sub s : string) (i : nat) :
  occurs_at sub s i -> (i + String.length sub <= String.length s)%nat.
Proof.
  intros (pre & post & -> & <-). rewrite !length_append. lia.
Qed.

Lemma occurs_at_O (sub s : string) :
  occurs_at sub s 0 <-> prefix sub s = true.
Proof.
  rewrite prefix_iff. split.
  - intros (pre & post & -> & Hl). destruct pre; [|discriminate].
    exists post; reflexivity.
  - intros [post ->]. exists "", post; split; reflexivity.
Qed.

Lemma occurs_at_S (sub s : string) (c : ascii) (i : nat) :
  occurs_at sub (String c s) (S i) <-> occurs_at sub s i.
Proof.
  split.
  - intros (pre & post & H & Hl). destruct pre as [|d pre]; [discriminate|].
    simpl in H, Hl. injection H as _ H. exists pre, post; split; congruence.
  - intros (pre & post & -> & <-). exists (String c pre), post.
    split; reflexivity.
Qed.

Lemma occurs_at_skip (sub s : string) (n i : nat) :
  (n <= String.length s)%nat ->
  (occurs_at sub (skip n s) i <-> occurs_at sub s (n + i)).
Proof.
  revert s; induction n as [|n IH]; intros s Hn; [reflexivity|].
  destruct s as [|c s]; simpl in Hn; [lia|].
  simpl. rewrite occurs_at_S. apply IH; lia.
Qed.

Lemma rfind_Some (sub s : string) (i : nat) :
  rfind sub s = Some i ->
  occurs_at sub s i /\ forall j, occurs_at sub s j -> (j <= i)%nat.
Proof.
  revert i; induction s as [|c s IH]; intros i H.
  - cbn [rfind] in H. destruct (prefix sub "") eqn:Hp; [|discriminate].
    injection H as <-. split; [apply occurs_at_O; exact Hp|].
    intros j Hj. apply occurs_at_bound in Hj. simpl in Hj. lia.
  - cbn [rfind] in H. destruct (rfind sub s) as [k|] eqn:Hr.
    + injection H as <-. destruct (IH k eq_refl) as [Ho Hmax].
      split; [apply occurs_at_S; exact Ho|].
      intros [|j] Hj; [lia|]. apply occurs_at_S in Hj.
      apply Hmax in Hj. lia.
    + destruct (prefix sub (String c s)) eqn:Hp; [|discriminate].
      injection H as <-. split; [apply occurs_at_O; exact Hp|].
      intros [|j] Hj; [lia|]. apply occurs_at_S in Hj.
      exfalso. clear IH Hp. revert j Hj.
      induction s as [|d s IHs]; intros j Hj.
      * cbn [rfind] in Hr. destruct (prefix sub "") eqn:Hp; [discriminate|].
        assert (j = 0%nat) as ->
          by (apply occurs_at_bound in Hj; simpl in Hj; lia).
        apply occurs_at_O in Hj. congruence.
      * cbn [rfind] in Hr. destruct (rfind sub s) eqn:Hr'; [discriminate|].
        destruct (prefix sub (String d s)) eqn:Hp; [discriminate|].
        destruct j as [|j].
        -- apply occurs_at_O in Hj. congruence.
        -- apply occurs_at_S in Hj. exact (IHs eq_refl j Hj).
Qed.

Lemma rfind_None (sub s : string) :
  rfind sub s = None -> forall j, ~ occurs_at sub s j.
Proof.
  induction s as [|c s IH]; cbn [rfind]; intros H j Hj.
  - destruct (prefix sub "") eqn:Hp; [discriminate|].
    assert (j = 0%nat) as ->
      by (apply occurs_at_bound in Hj; simpl in Hj; lia).
    apply occurs_at_O in Hj. congruence.
  - destruct (rfind sub s) eqn:Hr; [discriminate|].
    destruct (prefix sub (String c s)) eqn:Hp; [discriminate|].
    destruct j as [|j].
    + apply occurs_at_O in Hj. congruence.
    + apply occurs_at_S in Hj. exact (IH eq_refl j Hj).
Qed.

Lemma last_occurrence_unique (sub s : string) (from i j : nat) :
  last_occurrence sub s from i -> last_occurrence sub s from j -> i = j.
Proof.
  intros (Hi & Hfi & Hmi) (Hj & Hfj & Hmj).
  specialize (Hmi j Hj Hfj). specialize (Hmj i Hi Hfi). lia.
Qed.

(** [rindex] finds the last occurrence. *)
Lemma rindex_inr (s sub : string) (from i : nat) :
  rindex s sub from = inr i -> last_occurrence sub s from i.
Proof.
  unfold rindex. destruct (String.length s <? from)%nat eqn:Hl; [discriminate|].
  apply Nat.ltb_ge in Hl.
  destruct (rfind sub (skip from s)) as [k|] eqn:Hr; [|discriminate].
  intros H; injection H as <-.
  destruct (rfind_Some _ _ _ Hr) as [Ho Hmax].
  split; [apply occurs_at_skip; assumption|]. split; [lia|].
  intros j Hj Hfj. replace j with (from + (j - from))%nat in Hj by lia.
  apply occurs_at_skip in Hj; [|assumption]. apply Hmax in Hj. lia.
Qed.

(** [rindex] raises [ValueError], and nothing else, when there is no
    occurrence. *)
Lemma rindex_inl (s sub : string) (from : nat) (e : exn) :
  rindex s sub from = inl e ->
  e = ValueError /\ forall j, (from <= j)%nat -> ~ occurs_at sub s j.
Proof.
  unfold rindex. destruct (String.length s <? from)%nat eqn:Hl.
  - apply Nat.ltb_lt in Hl. intros H; injection H as <-.
    split; [reflexivity|]. intros j Hfj Hj.
    apply occurs_at_bound in Hj. lia.
  - apply Nat.ltb_ge in Hl.
    destruct (rfind sub (skip from s)) as [k|] eqn:Hr; [discriminate|].
    intros H; injection H as <-. split; [reflexivity|].
    intros j Hfj Hj. replace j with (from + (j - from))%nat in Hj by lia.
    apply occurs_at_skip in Hj; [|assumption].
    exact (rfind_None _ _ Hr _ Hj).
Qed.

Lemma rindex_last (s sub : string) (from i : nat) :
  last_occurrence sub s from i -> rindex s sub from = inr i.
Proof.
  intros Hlast. destruct (rindex s sub from) as [e|k] eqn:Hr.
  - destruct (rindex_inl _ _ _ _ Hr) as [_ Hno].
    destruct Hlast as (Ho & Hf & _). destruct (Hno i Hf Ho).
  - apply rindex_inr in Hr. f_equal.
    exact (last_occurrence_unique _ _ _ _ _ Hr Hlast).
Qed.

End StringFacts.

(** ** [find_substring] *)

Section FindSubstring.

Lemma find_substring_unfold (string start end_ : String.string) (i : nat) :
  rindex string start 0 = inr i ->
  find_substring string start end_ =
  match rindex string end_ (i + String.length start) with
  | inr e => inr (slice (i + String.length start) e string)
  | inl ValueError => inr ""
  | inl e => inl e
  end.
Proof.
  intros H. unfold find_substring. rewrite H. cbn [bind_raises].
  destruct (rindex string end_ (i + String.length start)) as [[]|e];
    reflexivity.
Qed.

(** When the start keyword does not occur, the result is empty. *)
Lemma find_substring_no_start (string start end_ : String.string) :
  (forall j, ~ occurs_at start string j) ->
  find_substring string start end_ = inr "".
Proof.
  intros Hno. unfold find_substring.
  destruct (rindex string start 0) as [e|i] eqn:Hr.
  - apply rindex_inl in Hr. destruct Hr as [-> _]. reflexivity.
  - apply rindex_inr in Hr. destruct Hr as [Ho _]. destruct (Hno i Ho).
Qed.

(** C5.  Let [i] be the index of the last occurrence of the start keyword
    and [s = i + len(start)] the index that follows it.  If [e] is the
    index of the last occurrence of the end keyword among those at [s] or
    later, [find_substring] returns [string[s:e]], and the text reads:
    something of length [i], the start keyword, the result, the end
    keyword, something.  If the end keyword has no occurrence at [s] or
    later, [find_substring] returns the empty string; it raises
    nothing. *)
Theorem find_substring_between (string start end_ : String.string) (i : nat) :
  last_occurrence start string 0 i ->
  (forall e,
      last_occurrence end_ string (i + String.length start) e ->
      find_substring string start end_
      = inr (slice (i + String.length start) e string) /\
      exists pre post,
        string
        = pre ++ start ++ slice (i + String.length start) e string
              ++ end_ ++ post /\
        String.length pre = i) /\
  ((forall e, (i + String.length start <= e)%nat -> ~ occurs_at end_ string e) ->
   find_substring string start end_ = inr "").
Proof.
  intros Hstart. pose proof (rindex_last _ _ _ _ Hstart) as Hi.
  rewrite (find_substring_unfold _ _ _ _ Hi). split.
  - intros e Hend. rewrite (rindex_last _ _ _ _ Hend).
    split; [reflexivity|].
    destruct Hstart as ((pre & rest & Hs & Hpre) & _).
    destruct Hend as ((pre2 & post & Hs2 & Hpre2) & Hle & _).
    assert (Hcut : (pre ++ start) ++ rest = pre2 ++ end_ ++ post)
      by (rewrite append_assoc; congruence).
    apply append_eq_split in Hcut;
      [|rewrite length_append; lia].
    destruct Hcut as (mid & Hp2 & Hrest).
    assert (Hmid : slice (i + String.length start) e string = mid).
    { rewrite Hs, Hrest, <- append_assoc.
      replace (i + String.length start)%nat
        with (String.length (pre ++ start))
        by (rewrite length_append; lia).
      replace e with (String.length (pre ++ start) + String.length mid)%nat
        by (rewrite <- length_append, <- Hp2; exact Hpre2).
      apply slice_append. }
    exists pre, post. rewrite Hmid. split; [congruence | exact Hpre].
  - intros Hno.
    destruct (rindex string end_ (i + String.length start)) as [ex|e] eqn:Hr.
    + apply rindex_inl in Hr. destruct Hr as [-> _]. reflexivity.
    + apply rindex_inr in Hr. destruct Hr as (Ho & Hle & _).
      destruct (Hno e Hle Ho).
Qed.

(** The keyword [Melody] occurs twice and [Drum] twice after it: the
    result lies between the last of each.  In the second text no [Drum]
    follows. *)
Lemma find_substring_between_witness :
  find_substring "Melody-A-Melody-B-Drum-C-Drum-D" "Melody" "Drum"
  = inr "-B-Drum-C-" /\
  find_substring "Drum-Melody-A" "Melody" "Drum" = inr "".
Proof.
  split.
  - destruct (find_substring_between
                "Melody-A-Melody-B-Drum-C-Drum-D" "Melody" "Drum" 9)
      as [Hfound _].
    + apply rindex_inr. reflexivity.
    + destruct (Hfound 25%nat) as [Heq _].
      * apply rindex_inr. reflexivity.
      * exact Heq.
  - destruct (find_substring_between "Drum-Melody-A" "Melody" "Drum" 5)
      as [_ Hnone].
    + apply rindex_inr. reflexivity.
    + apply Hnone. intros e He.
      assert (Hr : rindex "Drum-Melody-A" "Drum" (5 + 6) = inl ValueError)
        by reflexivity.
      apply rindex_inl in Hr. destruct Hr as [_ Hno]. exact (Hno e He).
Defined.

End FindSubstring.

(** ** [parse_table_to_list] *)

Section ParseTable.

Lemma split_on_free (sep : ascii -> bool) (s : string) :
  free_of sep s = true -> split_on sep s = [s].
Proof.
  induction s as [|c s IH]; simpl; [reflexivity|].
  intros H. apply andb_true_iff in H. destruct H as [Hc Hs].
  apply negb_true_iff in Hc. rewrite Hc, (IH Hs). reflexivity.
Qed.

Lemma split_on_cons (sep : ascii -> bool) (f rest : string) (c : ascii) :
  free_of sep f = true -> sep c = true ->
  split_on sep (f ++ String c rest) = f :: split_on sep rest.
Proof.
  intros Hf Hc. induction f as [|d f IH]; simpl.
  - rewrite Hc. reflexivity.
  - simpl in Hf. apply andb_true_iff in Hf. destruct Hf as [Hd Hf].
    apply negb_true_iff in Hd. rewrite Hd, (IH Hf). reflexivity.
Qed.

(** Splitting undoes joining: every separator character ends a field. *)
Lemma split_on_join (sep : ascii -> bool) (first : string)
      (rest : list (ascii * string)) :
  free_of sep first = true ->
  Forall (fun cf => sep (fst cf) = true /\ free_of sep (snd cf) = true) rest ->
  split_on sep (join_fields first rest) = first :: map snd rest.
Proof.
  intros Hfirst Hrest. revert first Hfirst.
  induction Hrest as [|[c f] rest [Hc Hf] _ IH]; intros first Hfirst;
    cbn [join_fields map snd].
  - apply split_on_free; assumption.
  - rewrite split_on_cons by assumption. f_equal. apply IH. exact Hf.
Qed.

Lemma free_of_append (sep : ascii -> bool) (a b : string) :
  free_of sep (a ++ b) = free_of sep a && free_of sep b.
Proof.
  induction a as [|c a IH]; simpl; [reflexivity|].
  rewrite IH. apply andb_assoc.
Qed.

Lemma free_of_join (sep : ascii -> bool) (first : string)
      (rest : list (ascii * string)) :
  free_of sep first = true ->
  Forall (fun cf => sep (fst cf) = false /\ free_of sep (snd cf) = true) rest ->
  free_of sep (join_fields first rest) = true.
Proof.
  intros Hfirst Hrest. revert first Hfirst.
  induction Hrest as [|[c f] rest [Hc Hf] _ IH]; intros first Hfirst;
    cbn [join_fields]; [assumption|].
  rewrite free_of_append. cbn [free_of]. cbn [fst snd] in Hc, Hf.
  rewrite Hfirst, Hc, (IH f Hf). reflexivity.
Qed.

(** The guard, as a proposition. *)
Lemma guard_candidate (valid_midi_notes : list Z) (line : string) :
  negb (String.eqb line "") &&
  existsb (fun note => startswith line (str note)) valid_midi_notes = true
  <-> candidate valid_midi_notes line.
Proof.
  unfold candidate, startswith.
  rewrite andb_true_iff, negb_true_iff, String.eqb_neq, existsb_exists.
  split; intros [Hne Hex]; (split; [exact Hne|]).
  - destruct Hex as (note & Hin & Hp). apply prefix_inv in Hp.
    destruct Hp as [rest ->]. exists note, rest; split; [assumption|reflexivity].
  - destruct Hex as (note & rest & Hin & ->). exists note.
    split; [assumption | apply prefix_append].
Qed.

(** The rows returned are the split lines that pass both guards. *)
Lemma parse_table_to_list_rows (data : string) (valid_midi_notes : list Z)
      (rows : list row) :
  parse_table_to_list data valid_midi_notes = Some rows ->
  forall r,
    In r rows <->
    exists line,
      In line (split_lines data) /\ candidate valid_midi_notes line /\
      r = re_split_tab_space line /\ (4 <= List.length r)%nat.
Proof.
  unfold parse_table_to_list.
  destruct (negb (String.eqb data "")); [|discriminate].
  intros H r; injection H as <-. split.
  - intros Hin. apply filter_In in Hin. destruct Hin as [Hin Hlen].
    change ((4 <=? List.length r)%nat = true) in Hlen.
    apply Nat.leb_le in Hlen. apply in_map_iff in Hin.
    destruct Hin as (line & <- & Hin). apply filter_In in Hin.
    destruct Hin as [Hin Hg]. apply guard_candidate in Hg.
    exists line; auto.
  - intros (line & Hin & Hc & -> & Hlen). apply filter_In.
    split; [|apply (proj2 (Nat.leb_le 4 _)); exact Hlen].
    apply in_map. apply filter_In.
    split; [exact Hin | apply guard_candidate; exact Hc].
Qed.

Lemma parse_table_to_list_nonempty (data : string) (valid_midi_notes : list Z) :
  data <> "" ->
  parse_table_to_list data valid_midi_notes
  = Some (filter (fun i => (4 <=? List.length i)%nat)
            (map re_split_tab_space
               (filter
                  (fun row =>
                     negb (String.eqb row "") &&
                     existsb (fun note => startswith row (str note))
                       valid_midi_notes)
                  (split_lines data)))).
Proof.
  intros Hne. unfold parse_table_to_list.
  apply String.eqb_neq in Hne. rewrite Hne. reflexivity.
Qed.

(** The decimal writing of a valid note is a non-empty token. *)
Lemma str_note_token (note : Z) :
  In note VALID_MIDI_NOTES ->
  token (str note) = true /\ str note <> "".
Proof.
  assert (H : forallb (fun n => token (str n) && negb (String.eqb (str n) ""))
                VALID_MIDI_NOTES = true) by (vm_compute; reflexivity).
  rewrite forallb_forall in H. intros Hin. specialize (H note Hin).
  apply andb_true_iff in H. destruct H as [Ht Hn].
  apply negb_true_iff, String.eqb_neq in Hn. split; assumption.
Qed.

Lemma field_firstn (r : row) (name : string) :
  field (firstn 4 r) name = field r name.
Proof.
  unfold field. destruct (list_index name SCHEMA) as [e|i] eqn:Hi;
    [reflexivity|]. cbn [bind_raises]. unfold getitem. f_equal.
  assert (Hlt : (i < 4)%nat).
  { unfold SCHEMA in Hi. cbn [list_index] in Hi.
    destruct (String.eqb PITCH name); [injection Hi as <-; lia|].
    destruct (String.eqb START_TIME name);
      [cbv beta iota in Hi; injection Hi as <-; lia|].
    destruct (String.eqb DURATION name);
      [cbv beta iota in Hi; injection Hi as <-; lia|].
    destruct (String.eqb VELOCITY name);
      [cbv beta iota in Hi; injection Hi as <-; lia|].
    discriminate. }
  clear Hi. revert r. do 4 (destruct i as [|i]; [intros [|? [|? [|? [|? ?]]]]; reflexivity|]).
  lia.
Qed.

(** What the guard computes.  When [parse_table_to_list] returns rows, a
    row is among them exactly when it is the splitting, into at least four
    fields, of a line that is not empty and begins with the decimal
    writing of one of the notes.  When no line does, the result is the
    empty list. *)
Lemma parse_table_to_list_guard (data : string) (valid_midi_notes : list Z) :
  data <> "" ->
  exists rows,
    parse_table_to_list data valid_midi_notes = Some rows /\
    (forall r,
        In r rows <->
        exists line,
          In line (split_lines data) /\ candidate valid_midi_notes line /\
          r = re_split_tab_space line /\ (4 <= List.length r)%nat) /\
    ((forall line,
         In line (split_lines data) -> ~ candidate valid_midi_notes line) ->
     rows = []).
Proof.
  intros Hne. rewrite (parse_table_to_list_nonempty _ _ Hne).
  eexists. split; [reflexivity|].
  pose proof (parse_table_to_list_rows data valid_midi_notes _
                (parse_table_to_list_nonempty _ _ Hne)) as Hrows.
  split; [exact Hrows|]. intros Hnone.
  match goal with |- ?l = [] => destruct l as [|r l'] eqn:Hl end;
    [reflexivity|]. exfalso.
  destruct (proj1 (Hrows r) (or_introl eq_refl)) as (line & Hin & Hc & _).
  exact (Hnone line Hin Hc).
Qed.

(** A line that begins with [60] is kept with its fields; a line of
    prose is dropped. *)
Lemma parse_table_to_list_guard_witness :
  exists rows,
    parse_table_to_list "60abc 0.0 0.5 100" VALID_MIDI_NOTES = Some rows /\
    In ["60abc"; "0.0"; "0.5"; "100"] rows /\
    parse_table_to_list "Here is the table" VALID_MIDI_NOTES = Some [].
Proof.
  destruct (parse_table_to_list_guard "60abc 0.0 0.5 100" VALID_MIDI_NOTES)
    as (rows & Hparse & Hrows & _); [discriminate|].
  exists rows. split; [exact Hparse|]. split.
  - apply Hrows. exists "60abc 0.0 0.5 100".
    split; [left; reflexivity|]. split; [|split; [reflexivity | simpl; lia]].
    split; [discriminate|]. exists 60, "abc 0.0 0.5 100".
    split; [vm_compute; tauto | reflexivity].
  - reflexivity.
Defined.

(** The first field [300] is the writing of no valid note, and the line is
    kept. *)
Lemma parse_table_to_list_guard_counterexample :
  parse_table_to_list "300 0.0 0.5 100" VALID_MIDI_NOTES
  = Some [["300"; "0.0"; "0.5"; "100"]] /\
  ~ (exists note, In note VALID_MIDI_NOTES /\ str note = "300").
Proof.
  split; [reflexivity|]. intros (note & Hin & Hstr).
  assert (H : forallb (fun n => negb (String.eqb (str n) "300"))
                VALID_MIDI_NOTES = true) by (vm_compute; reflexivity).
  rewrite forallb_forall in H. specialize (H note Hin).
  apply negb_true_iff, String.eqb_neq in H. exact (H Hstr).
Qed.

(** C7, as amended.  A line made of the writing of a valid note followed
    by tokens, each preceded by one tab or one space, is split at every
    one of these separators: its fields are the note and the tokens, and
    an empty token stands where two separators are adjacent.  The line is
    kept exactly when this gives at least four fields.  The first four
    fields are, in this order, the pitch, the start time, the duration and
    the velocity, and the fields after them are not looked at. *)
Theorem parse_row_fields (note : Z) (rest : list (ascii * string)) :
  In note VALID_MIDI_NOTES ->
  Forall (fun cf => is_tab_or_space (fst cf) = true /\ token (snd cf) = true)
    rest ->
  let r := str note :: map snd rest in
  parse_table_to_list (join_fields (str note) rest) VALID_MIDI_NOTES
  = Some (if (4 <=? List.length r)%nat then [r] else []) /\
  (forall S D V extras,
      map snd rest = S :: D :: V :: extras ->
      field r PITCH = inr (str note) /\ field r START_TIME = inr S /\
      field r DURATION = inr D /\ field r VELOCITY = inr V) /\
  (forall name, field (firstn 4 r) name = field r name).
Proof.
  intros Hnote Hrest r.
  destruct (str_note_token note Hnote) as [Htok Hne].
  apply andb_true_iff in Htok. destruct Htok as [Hsp Hnl].
  split; [|split].
  - assert (Hline : join_fields (str note) rest <> "").
    { destruct (str note) as [|c s] eqn:Hs; [congruence|].
      destruct rest as [|[d f] rest']; discriminate. }
    rewrite (parse_table_to_list_nonempty _ _ Hline).
    unfold split_lines. rewrite split_on_free.
    + cbn [filter].
      assert (Hg : negb (String.eqb (join_fields (str note) rest) "") &&
                   existsb (fun n => startswith (join_fields (str note) rest)
                                       (str n)) VALID_MIDI_NOTES = true).
      { apply guard_candidate. split; [exact Hline|].
        destruct rest as [|[d f] rest'].
        - exists note, "". rewrite append_nil_r. auto.
        - exists note, (String d (join_fields f rest')). auto. }
      rewrite Hg. cbn [map filter]. unfold re_split_tab_space.
      rewrite split_on_join; [reflexivity | exact Hsp |].
      eapply Forall_impl; [|exact Hrest].
      intros [c f] [Hc Hf]. apply andb_true_iff in Hf. tauto.
    + apply free_of_join; [exact Hnl|].
      eapply Forall_impl; [|exact Hrest].
      intros [c f] [Hc Hf]. cbn [fst snd] in *.
      apply andb_true_iff in Hf. split; [|tauto].
      unfold is_tab_or_space in Hc. apply orb_true_iff in Hc.
      destruct Hc as [Hc|Hc]; apply Ascii.eqb_eq in Hc; subst c; reflexivity.
  - intros S D V extras Hfields. subst r. rewrite Hfields.
    repeat split; reflexivity.
  - intros name. apply field_firstn.
Qed.

(** The row [60 0.0 0.5 100 x], its four fields and a fifth one. *)
Lemma parse_row_fields_witness :
  parse_table_to_list "60 0.0 0.5 100 x" VALID_MIDI_NOTES
  = Some [["60"; "0.0"; "0.5"; "100"; "x"]] /\
  field ["60"; "0.0"; "0.5"; "100"; "x"] START_TIME = inr "0.0".
Proof.
  destruct (parse_row_fields 60
              [(space, "0.0"); (space, "0.5"); (space, "100"); (space, "x")])
    as (Hparse & Hfields & _).
  - vm_compute; tauto.
  - repeat constructor.
  - split; [exact Hparse|].
    destruct (Hfields "0.0" "0.5" "100" ["x"] eq_refl) as (_ & Hstart & _).
    exact Hstart.
Defined.

(** C7, as stated, fails: two adjacent spaces enclose an empty field, and
    the start time is read from it. *)
Lemma parse_row_fields_counterexample :
  parse_table_to_list "60  0.0 0.5 100" VALID_MIDI_NOTES
  = Some [["60"; ""; "0.0"; "0.5"; "100"]] /\
  field ["60"; ""; "0.0"; "0.5"; "100"] START_TIME = inr "" /\
  re_split_tab_space "60  0.0 0.5 100" <> ["60"; "0.0"; "0.5"; "100"].
Proof. repeat split; try reflexivity. discriminate. Qed.

(** C9.  [parse_table_to_list] returns [None] for the empty string and
    for no other; otherwise it returns rows of at least four fields, which
    are the splittings of some of the lines of the text, in the order of
    these lines.  It raises nothing and converts no field: every line
    that passes the guards gives a row, whatever its fields are. *)
Theorem parse_table_to_list_total (data : string) (valid_midi_notes : list Z) :
  match parse_table_to_list data valid_midi_notes with
  | None => data = ""
  | Some rows =>
      data <> "" /\
      Forall (fun r => (4 <= List.length r)%nat) rows /\
      (exists keep,
          rows = map re_split_tab_space (filter keep (split_lines data))) /\
      (forall line,
          In line (split_lines data) -> candidate valid_midi_notes line ->
          (4 <= List.length (re_split_tab_space line))%nat ->
          In (re_split_tab_space line) rows)
  end.
Proof.
  destruct (String.eqb_spec data "") as [->|Hne]; [reflexivity|].
  pose proof (parse_table_to_list_nonempty data valid_midi_notes Hne) as Hp.
  rewrite Hp. split; [exact Hne|]. split; [|split].
  - apply Forall_forall. intros r Hin. apply filter_In in Hin.
    destruct Hin as [_ Hlen]. apply Nat.leb_le. exact Hlen.
  - exists (fun line =>
              (negb (String.eqb line "") &&
               existsb (fun note => startswith line (str note))
                 valid_midi_notes) &&
              (4 <=? List.length (re_split_tab_space line))%nat).
    clear Hp. induction (split_lines data) as [|line lines IH]; [reflexivity|].
    cbn [filter].
    destruct (negb (String.eqb line "") &&
              existsb (fun note => startswith line (str note))
                valid_midi_notes); cbn [andb map filter].
    + destruct (4 <=? List.length (re_split_tab_space line))%nat;
        cbn [map]; rewrite IH; reflexivity.
    + exact IH.
  - intros line Hin Hc Hlen.
    apply (parse_table_to_list_rows _ _ _ Hp). exists line. auto.
Qed.

End ParseTable.

(** ** The sequencer *)

Section SequencerFacts.

Context {num : Numeric}.

(** Case analysis on the computation that a [bind_raises] runs first. *)
Ltac raises_step :=
  cbn [bind_raises] in *;
  match goal with
  | |- context [bind_raises ?x _] => destruct x eqn:?
  | H : context [bind_raises ?x _] |- _ => destruct x eqn:?
  end;
  cbn [bind_raises] in *.

Lemma add_durations_fold (data : list row) (t : float) :
  add_durations data t
  = (ds <- durations_of data ;; inr (fold_left float_add ds t))%raises.
Proof.
  revert t; induction data as [|r rest IH]; intros t;
    cbn [add_durations durations_of]; [reflexivity|].
  do 2 (raises_step; [reflexivity|]). rewrite IH.
  destruct (durations_of rest); reflexivity.
Qed.

Lemma calculate_pattern_duration_eq (data : list row) :
  calculate_pattern_duration data
  = (s <- start_of data ;;
     ds <- durations_of data ;;
     inr (pattern_duration s ds))%raises.
Proof.
  unfold calculate_pattern_duration, start_of.
  do 3 (raises_step; [reflexivity|]). rewrite add_durations_fold.
  destruct (durations_of data); reflexivity.
Qed.

Lemma notes_of_durations (data : list row) (ns : list (note float)) :
  notes_of data = inr ns -> durations_of data = inr (map duration ns).
Proof.
  revert ns; induction data as [|r rest IH]; intros ns H;
    cbn [notes_of durations_of] in *.
  - injection H as <-. reflexivity.
  - unfold note_of_row in H.
    destruct (tok <- field r PITCH ;; int_ tok)%raises as [e|p];
      cbn [bind_raises] in H; [discriminate|].
    destruct (tok <- field r VELOCITY ;; int_ tok)%raises as [e|v];
      cbn [bind_raises] in H; [discriminate|].
    destruct (field r DURATION) as [e|tok]; cbn [bind_raises] in *;
      [discriminate|].
    destruct (float_ tok) as [e|d]; cbn [bind_raises] in *; [discriminate|].
    destruct (notes_of rest) as [e|l]; cbn [bind_raises] in *; [discriminate|].
    injection H as <-. rewrite (IH l eq_refl). reflexivity.
Qed.

Lemma converted_notes (data : list row) (ns : list (note float)) :
  notes_of data = inr ns -> converted data = ns.
Proof.
  revert ns; induction data as [|r rest IH]; intros ns H;
    cbn [notes_of converted] in *.
  - injection H as <-. reflexivity.
  - destruct (note_of_row r) as [e|n]; cbn [bind_raises] in H; [discriminate|].
    destruct (notes_of rest) as [e|l]; cbn [bind_raises] in H; [discriminate|].
    injection H as <-. rewrite (IH l eq_refl). reflexivity.
Qed.

(** A track that converts has a pattern duration. *)
Lemma track_pattern_duration (data : list row) (start : float) (ns : list (note float)) :
  track_of data start ns ->
  calculate_pattern_duration data
  = inr (pattern_duration start (map duration ns)).
Proof.
  intros [Hs Hn]. rewrite calculate_pattern_duration_eq, Hs.
  cbn [bind_raises]. rewrite (notes_of_durations _ _ Hn). reflexivity.
Qed.

(** What a loop of [send_events] does: it sends the notes up to the first
    row that raises, if there is one. *)
Lemma send_rows_run (track : Z) (data : list row) (pointer : float)
      (sent : list (message float)) :
  send_rows track data pointer sent
  = (match notes_of data with
     | inr _ => inr tt
     | inl e => inl e
     end,
     (sent ++ note_messages track (converted data) pointer)%list).
Proof.
  revert pointer sent; induction data as [|r rest IH]; intros pointer sent;
    cbn [send_rows notes_of converted note_messages].
  - unfold ret. rewrite app_nil_r. reflexivity.
  - unfold note_of_row, bind, lift.
    destruct (tok <- field r PITCH ;; int_ tok)%raises as [e|p];
      cbn [bind_raises note_messages]; [rewrite app_nil_r; reflexivity|].
    destruct (tok <- field r VELOCITY ;; int_ tok)%raises as [e|v];
      cbn [bind_raises note_messages]; [rewrite app_nil_r; reflexivity|].
    destruct (tok <- field r DURATION ;; float_ tok)%raises as [e|d];
      cbn [bind_raises note_messages]; [rewrite app_nil_r; reflexivity|].
    unfold send_message. rewrite IH. cbn [pitch velocity duration].
    rewrite <- app_assoc. cbn [app].
    destruct (notes_of rest); reflexivity.
Qed.

Lemma send_track_run (track : Z) (data : list row) (sent : list (message float)) :
  send_track track data sent
  = match data with
    | [] => (inr tt, sent)
    | _ :: _ =>
        match start_of data with
        | inr s =>
            (match notes_of data with
             | inr _ => inr tt
             | inl e => inl e
             end,
             (sent ++ note_messages track (converted data) s)%list)
        | inl e => (inl e, sent)
        end
    end.
Proof.
  destruct data as [|row0 rest]; [reflexivity|].
  unfold send_track, start_of, bind, lift, getitem.
  cbn [nth_error of_option bind_raises].
  destruct (tok <- field row0 START_TIME ;; float_ tok)%raises as [e|s];
    [reflexivity|].
  apply send_rows_run.
Qed.

Lemma initiate_clips_run (song_tempo : Z) (melody_data drum_data bass_data : list row)
      (sent : list (message float)) :
  initiate_clips song_tempo melody_data drum_data bass_data sent
  = match calculate_pattern_duration melody_data,
          calculate_pattern_duration drum_data,
          calculate_pattern_duration bass_data with
    | inr lm, inr ld, inr lb =>
        (inr tt,
         (sent ++ set_tempo song_tempo
               :: clip_messages 0 lm ++ clip_messages 1 ld ++ clip_messages 2 lb)%list)
    | inl e, _, _ | inr _, inl e, _ | inr _, inr _, inl e =>
        (inl e, (sent ++ [set_tempo song_tempo])%list)
    end.
Proof.
  unfold initiate_clips, bind, lift, send_message.
  destruct (calculate_pattern_duration melody_data) as [e|lm]; [reflexivity|].
  destruct (calculate_pattern_duration drum_data) as [e|ld]; [reflexivity|].
  destruct (calculate_pattern_duration bass_data) as [e|lb]; [reflexivity|].
  repeat rewrite <- app_assoc. reflexivity.
Qed.

Lemma sequence_run (song_tempo : Z) (melody_data drum_data bass_data : list row)
      (sent : list (message float)) :
  sequence song_tempo melody_data drum_data bass_data sent
  = match calculate_pattern_duration melody_data,
          calculate_pattern_duration drum_data,
          calculate_pattern_duration bass_data with
    | inr lm, inr ld, inr lb =>
        send_events melody_data drum_data bass_data
          (sent ++ set_tempo song_tempo
                :: clip_messages 0 lm ++ clip_messages 1 ld ++ clip_messages 2 lb)%list
    | inl e, _, _ | inr _, inl e, _ | inr _, inr _, inl e =>
        (inl e, (sent ++ [set_tempo song_tempo])%list)
    end.
Proof.
  unfold sequence, bind. rewrite initiate_clips_run.
  destruct (calculate_pattern_duration melody_data) as [e|lm]; [reflexivity|].
  destruct (calculate_pattern_duration drum_data) as [e|ld]; [reflexivity|].
  destruct (calculate_pattern_duration bass_data) as [e|lb]; reflexivity.
Qed.

Lemma start_of_nonempty (data : list row) (s : float) :
  start_of data = inr s -> data <> [].
Proof. intros H ->. discriminate H. Qed.

(** [send_events] on three tables whose first start times convert. *)
Lemma send_events_run (melody_data drum_data bass_data : list row)
      (sm sd sb : float) (sent : list (message float)) :
  start_of melody_data = inr sm -> start_of drum_data = inr sd ->
  start_of bass_data = inr sb ->
  send_events melody_data drum_data bass_data sent
  = match notes_of melody_data with
    | inl e =>
        (inl e, (sent ++ note_messages 0 (converted melody_data) sm)%list)
    | inr _ =>
        match notes_of drum_data with
        | inl e =>
            (inl e,
             (sent ++ note_messages 0 (converted melody_data) sm
                   ++ note_messages 1 (converted drum_data) sd)%list)
        | inr _ =>
            (match notes_of bass_data with
             | inl e => inl e
             | inr _ => inr tt
             end,
             (sent ++ note_messages 0 (converted melody_data) sm
                   ++ note_messages 1 (converted drum_data) sd
                   ++ note_messages 2 (converted bass_data) sb)%list)
        end
    end.
Proof.
  intros Hm Hd Hb. unfold send_events, bind. rewrite !send_track_run.
  pose proof (start_of_nonempty _ _ Hm) as Nm.
  pose proof (start_of_nonempty _ _ Hd) as Nd.
  pose proof (start_of_nonempty _ _ Hb) as Nb.
  destruct melody_data as [|m0 ms]; [congruence|]. rewrite Hm.
  destruct (notes_of (m0 :: ms)) as [e|nm]; [reflexivity|].
  rewrite send_track_run.
  destruct drum_data as [|d0 ds]; [congruence|]. rewrite Hd.
  destruct (notes_of (d0 :: ds)) as [e|nd];
    [rewrite <- app_assoc; reflexivity|].
  rewrite send_track_run.
  destruct bass_data as [|b0 bs]; [congruence|]. rewrite Hb.
  rewrite <- !app_assoc. reflexivity.
Qed.

Lemma calculate_start_of (data : list row) (len : float) :
  calculate_pattern_duration data = inr len -> exists s, start_of data = inr s.
Proof.
  rewrite calculate_pattern_duration_eq.
  destruct (start_of data) as [e|s]; [discriminate|]. eauto.
Qed.

Lemma note_messages_add_notes (track : Z) (ns : list (note float)) (pointer : float) :
  Forall is_add_notes (note_messages track ns pointer).
Proof.
  revert pointer; induction ns as [|n ns IH]; intros pointer;
    cbn [note_messages]; constructor; [exact I | apply IH].
Qed.

Lemma notes_of_length (data : list row) (ns : list (note float)) :
  notes_of data = inr ns -> List.length ns = List.length data.
Proof.
  revert ns; induction data as [|r rest IH]; intros ns H; cbn [notes_of] in H.
  - injection H as <-. reflexivity.
  - destruct (note_of_row r) as [e|n]; cbn [bind_raises] in H; [discriminate|].
    destruct (notes_of rest) as [e|l]; cbn [bind_raises] in H; [discriminate|].
    injection H as <-. cbn [List.length]. rewrite (IH l eq_refl). reflexivity.
Qed.

Lemma note_messages_length (track : Z) (ns : list (note float)) (pointer : float) :
  List.length (note_messages track ns pointer) = List.length ns.
Proof.
  revert pointer; induction ns as [|n ns IH]; intros pointer;
    cbn [note_messages List.length]; [reflexivity|]. rewrite IH. reflexivity.
Qed.

(** The pointer carried by the message of a note is the start time plus
    the durations of the notes before it, added in order. *)
Lemma note_messages_nth (track : Z) (ns : list (note float)) (pointer : float)
      (k : nat) (n : note float) :
  nth_error ns k = Some n ->
  nth_error (note_messages track ns pointer) k
  = Some (add_notes track 0 (pitch n)
            (fold_left float_add (map duration (firstn k ns)) pointer)
            (duration n) (velocity n) 0).
Proof.
  revert pointer k; induction ns as [|m ns IH]; intros pointer [|k] H;
    cbn [nth_error] in H; try discriminate.
  - injection H as ->. reflexivity.
  - cbn [note_messages nth_error firstn map fold_left]. apply IH. exact H.
Qed.

(** The whole stream, for three tracks that convert. *)
Lemma sequence_tracks (song_tempo : Z) (melody_data drum_data bass_data : list row)
      (sm sd sb : float) (nm nd nb : list (note float)) (sent : list (message float)) :
  track_of melody_data sm nm -> track_of drum_data sd nd ->
  track_of bass_data sb nb ->
  sequence song_tempo melody_data drum_data bass_data sent
  = (inr tt,
     (sent ++ set_tempo song_tempo
           :: clip_messages 0 (pattern_duration sm (map duration nm))
           ++ clip_messages 1 (pattern_duration sd (map duration nd))
           ++ clip_messages 2 (pattern_duration sb (map duration nb))
           ++ note_messages 0 nm sm
           ++ note_messages 1 nd sd
           ++ note_messages 2 nb sb)%list).
Proof.
  intros Tm Td Tb. rewrite sequence_run.
  rewrite (track_pattern_duration _ _ _ Tm), (track_pattern_duration _ _ _ Td),
    (track_pattern_duration _ _ _ Tb).
  destruct Tm as [Hsm Hnm], Td as [Hsd Hnd], Tb as [Hsb Hnb].
  rewrite (send_events_run _ _ _ _ _ _ _ Hsm Hsd Hsb).
  rewrite Hnm, Hnd, Hnb.
  rewrite (converted_notes _ _ Hnm), (converted_notes _ _ Hnd),
    (converted_notes _ _ Hnb).
  f_equal. rewrite <- app_assoc. cbn [app clip_messages]. reflexivity.
Qed.

(** *** Which exception *)

Lemma field_wide (r : row) (name : string) :
  (4 <= List.length r)%nat -> In name SCHEMA -> exists tok, field r name = inr tok.
Proof.
  intros Hlen Hin.
  destruct r as [|f0 [|f1 [|f2 [|f3 r]]]]; cbn [List.length] in Hlen; try lia.
  cbn [In SCHEMA] in Hin.
  destruct Hin as [<-|[<-|[<-|[<-|[]]]]]; eexists; reflexivity.
Qed.

Lemma convert_field_error (A : Type) (conv : string -> raises A) (r : row)
      (name : string) (e : exn) :
  (4 <= List.length r)%nat -> In name SCHEMA ->
  (forall tok e', conv tok = inl e' -> e' = ValueError) ->
  (tok <- field r name ;; conv tok)%raises = inl e -> e = ValueError.
Proof.
  intros Hlen Hin Hconv H. destruct (field_wide r name Hlen Hin) as [tok Hf].
  rewrite Hf in H. cbn [bind_raises] in H. exact (Hconv _ _ H).
Qed.

Lemma float_error (tok : string) (e : exn) : float_ tok = inl e -> e = ValueError.
Proof. unfold float_. destruct (py_float tok); cbn; congruence. Qed.

Lemma int_error (tok : string) (e : exn) : int_ tok = inl e -> e = ValueError.
Proof. unfold int_. destruct (py_int tok); cbn; congruence. Qed.

Lemma note_of_row_error (r : row) (e : exn) :
  (4 <= List.length r)%nat -> note_of_row r = inl e -> e = ValueError.
Proof.
  intros Hlen H. unfold note_of_row in H.
  destruct (tok <- field r PITCH ;; int_ tok)%raises as [e1|p] eqn:Hp;
    cbn [bind_raises] in H.
  { injection H as <-.
    refine (convert_field_error _ _ _ _ _ Hlen _ int_error Hp).
    cbn; tauto. }
  destruct (tok <- field r VELOCITY ;; int_ tok)%raises as [e1|v] eqn:Hv;
    cbn [bind_raises] in H.
  { injection H as <-.
    refine (convert_field_error _ _ _ _ _ Hlen _ int_error Hv).
    cbn; tauto. }
  destruct (tok <- field r DURATION ;; float_ tok)%raises as [e1|d] eqn:Hd;
    cbn [bind_raises] in H; [|discriminate].
  injection H as <-.
  refine (convert_field_error _ _ _ _ _ Hlen _ float_error Hd).
  cbn; tauto.
Qed.

(** When [notes_of] raises, a row raises the same exception. *)
Lemma notes_of_error (data : list row) (e : exn) :
  notes_of data = inl e -> exists r, In r data /\ note_of_row r = inl e.
Proof.
  induction data as [|r rest IH]; cbn [notes_of]; [discriminate|].
  destruct (note_of_row r) as [e1|n] eqn:Hr; cbn [bind_raises].
  - intros H; injection H as <-. exists r. split; [left; reflexivity | exact Hr].
  - destruct (notes_of rest) as [e1|l]; cbn [bind_raises]; [|discriminate].
    intros H; injection H as <-. destruct (IH eq_refl) as (r' & Hin & Hr').
    exists r'. split; [right; exact Hin | exact Hr'].
Qed.

Lemma notes_of_rows (data : list row) (ns : list (note float)) :
  notes_of data = inr ns -> forall r, In r data -> exists n, note_of_row r = inr n.
Proof.
  revert ns; induction data as [|r rest IH]; intros ns H r' Hin;
    [destruct Hin|]. cbn [notes_of] in H.
  destruct (note_of_row r) as [e1|n] eqn:Hr; cbn [bind_raises] in H;
    [discriminate|].
  destruct (notes_of rest) as [e1|l]; cbn [bind_raises] in H; [discriminate|].
  destruct Hin as [<-|Hin]; [eauto | exact (IH l eq_refl r' Hin)].
Qed.

(** When a duration does not convert, neither does the row. *)
Lemma durations_of_error (data : list row) (e : exn) :
  durations_of data = inl e -> exists r e', In r data /\ note_of_row r = inl e'.
Proof.
  induction data as [|r rest IH]; cbn [durations_of]; [discriminate|].
  destruct (field r DURATION) as [e1|tok] eqn:Hf; cbn [bind_raises].
  - intros _. exists r. unfold note_of_row. rewrite Hf. cbn [bind_raises].
    destruct (tok <- field r PITCH ;; int_ tok)%raises; cbn [bind_raises];
      [eexists; split; [left; reflexivity | reflexivity]|].
    destruct (tok <- field r VELOCITY ;; int_ tok)%raises; cbn [bind_raises];
      eexists; split; try (left; reflexivity); reflexivity.
  - destruct (float_ tok) as [e1|d] eqn:Hd; cbn [bind_raises].
    + intros _. exists r. unfold note_of_row. rewrite Hf. cbn [bind_raises].
      rewrite Hd.
      destruct (tok <- field r PITCH ;; int_ tok)%raises; cbn [bind_raises];
        [eexists; split; [left; reflexivity | reflexivity]|].
      destruct (tok <- field r VELOCITY ;; int_ tok)%raises; cbn [bind_raises];
        eexists; split; try (left; reflexivity); reflexivity.
    + destruct (durations_of rest) as [e1|l]; cbn [bind_raises]; [|discriminate].
      intros H; injection H as <-.
      destruct (IH eq_refl) as (r' & e' & Hin & Hr').
      exists r', e'. split; [right; exact Hin | exact Hr'].
Qed.

Lemma durations_of_error_guarded (data : list row) (e : exn) :
  Forall (fun r => (4 <= List.length r)%nat) data ->
  durations_of data = inl e -> e = ValueError.
Proof.
  intros Hwide; revert e; induction Hwide as [|r rest Hr _ IH]; intros e;
    cbn [durations_of]; [discriminate|].
  destruct (field_wide r DURATION Hr) as [tok ->]; [cbn; tauto|].
  cbn [bind_raises].
  destruct (float_ tok) as [e1|d] eqn:Hf; cbn [bind_raises].
  - intros H; injection H as <-. exact (float_error _ _ Hf).
  - destruct (durations_of rest) as [e1|ds]; cbn [bind_raises]; [|discriminate].
    intros H; injection H as <-. exact (IH e1 eq_refl).
Qed.

Lemma start_of_error (data : list row) (e : exn) :
  guarded data -> start_of data = inl e -> e = ValueError.
Proof.
  intros [Hne Hwide] H. destruct data as [|row0 rest]; [congruence|].
  unfold start_of, getitem in H. cbn [nth_error of_option bind_raises] in H.
  apply Forall_inv in Hwide.
  refine (convert_field_error _ _ _ _ _ Hwide _ float_error H). cbn; tauto.
Qed.

Lemma notes_of_error_guarded (data : list row) (e : exn) :
  guarded data -> notes_of data = inl e -> e = ValueError.
Proof.
  intros [_ Hwide] H. destruct (notes_of_error _ _ H) as (r & Hin & Hr).
  rewrite Forall_forall in Hwide. exact (note_of_row_error _ _ (Hwide r Hin) Hr).
Qed.

Lemma calculate_error (data : list row) (e : exn) :
  guarded data -> calculate_pattern_duration data = inl e ->
  e = ValueError /\ unconvertible data.
Proof.
  intros G H. rewrite calculate_pattern_duration_eq in H.
  destruct (start_of data) as [e1|s] eqn:Hs; cbn [bind_raises] in H.
  - injection H as <-. split; [exact (start_of_error _ _ G Hs)|].
    left. eauto.
  - destruct (durations_of data) as [e1|ds] eqn:Hd; cbn [bind_raises] in H;
      [|discriminate]. injection H as <-.
    split; [exact (durations_of_error_guarded _ _ (proj2 G) Hd)|].
    destruct (durations_of_error _ _ Hd) as (r & e' & Hin & Hr).
    right. eauto.
Qed.

(** A table without an unconvertible field is a track. *)
Lemma convertible_track (data : list row) :
  ~ unconvertible data -> exists s ns, track_of data s ns.
Proof.
  intros Hc. unfold track_of.
  destruct (start_of data) as [e|s] eqn:Hs; [destruct Hc; left; eauto|].
  destruct (notes_of data) as [e|ns] eqn:Hn; [|eauto].
  destruct (notes_of_error _ _ Hn) as (r & Hin & Hr).
  destruct Hc; right; eauto.
Qed.

Lemma track_convertible (data : list row) (s : float) (ns : list (note float)) :
  track_of data s ns -> ~ unconvertible data.
Proof.
  intros [Hs Hn] [[e He]|(r & e & Hin & Hr)]; [congruence|].
  destruct (notes_of_rows _ _ Hn r Hin) as [n Hr']. congruence.
Qed.



End SequencerFacts.

(** ** The stream of messages *)

Section SequencerClaims.

Context {num : Numeric}.

(** C1.  Let the three tables be tracks: each has a first row whose start
    time converts, and the pitch, velocity and duration of every row
    convert.  Then the script sends exactly: the tempo; for the tracks 0, 1
    and 2 in this order, [delete_clip] and then [create_clip] with the
    pattern duration of the track; for the tracks 0, 1 and 2 in this order,
    one [add_notes] per row in the order of the rows, which carries the
    track, the clip 0, the pitch, the pointer, the duration, the velocity
    and the mute flag 0.  The pointer starts at the first start time of the
    track and advances by the duration of each note sent: the message of
    the row [k] carries the start time plus the durations of the rows
    before it. *)
Theorem sequence_stream (song_tempo : Z) (melody_data drum_data bass_data : list row)
        (sm sd sb : float) (nm nd nb : list (note float)) :
  track_of melody_data sm nm -> track_of drum_data sd nd ->
  track_of bass_data sb nb ->
  sequence song_tempo melody_data drum_data bass_data []
  = (inr tt,
     [set_tempo song_tempo]
     ++ [delete_clip 0 0;
         create_clip 0 0 (pattern_duration sm (map duration nm));
         delete_clip 1 0;
         create_clip 1 0 (pattern_duration sd (map duration nd));
         delete_clip 2 0;
         create_clip 2 0 (pattern_duration sb (map duration nb))]
     ++ note_messages 0 nm sm
     ++ note_messages 1 nd sd
     ++ note_messages 2 nb sb)%list /\
  (List.length (note_messages 0 nm sm) = List.length melody_data /\
   List.length (note_messages 1 nd sd) = List.length drum_data /\
   List.length (note_messages 2 nb sb) = List.length bass_data) /\
  (forall track ns s k n,
      In (track, ns, s) [(0, nm, sm); (1, nd, sd); (2, nb, sb)] ->
      nth_error ns k = Some n ->
      nth_error (note_messages track ns s) k
      = Some (add_notes track 0 (pitch n)
                (fold_left float_add (map duration (firstn k ns)) s)
                (duration n) (velocity n) 0)).
Proof.
  intros Tm Td Tb. split; [|split].
  - rewrite (sequence_tracks _ _ _ _ _ _ _ _ _ _ [] Tm Td Tb). reflexivity.
  - rewrite !note_messages_length.
    rewrite (notes_of_length _ _ (proj2 Tm)), (notes_of_length _ _ (proj2 Td)),
      (notes_of_length _ _ (proj2 Tb)). auto.
  - intros track ns s k n _ Hk. apply note_messages_nth. exact Hk.
Qed.

(** C4, as amended.  When the computation of the pattern duration of one of
    the three tables raises, the run ends with this exception after the
    tempo message, the only message sent: no clip is deleted or created
    and no note is added. *)
Theorem sequence_duration_failure (song_tempo : Z)
        (melody_data drum_data bass_data : list row) :
  (exists e, calculate_pattern_duration melody_data = inl e) \/
  (exists e, calculate_pattern_duration drum_data = inl e) \/
  (exists e, calculate_pattern_duration bass_data = inl e) ->
  exists e,
    sequence song_tempo melody_data drum_data bass_data []
    = (inl e, [set_tempo song_tempo]).
Proof.
  intros H. rewrite sequence_run.
  destruct (calculate_pattern_duration melody_data) as [e|lm]; [eauto|].
  destruct (calculate_pattern_duration drum_data) as [e|ld]; [eauto|].
  destruct (calculate_pattern_duration bass_data) as [e|lb]; [eauto|].
  destruct H as [[e H]|[[e H]|[e H]]]; discriminate H.
Qed.

(** The two causes named by C4: a table without rows, and a duration that
    does not convert. *)
Lemma calculate_pattern_duration_empty :
  calculate_pattern_duration [] = inl IndexError.
Proof. reflexivity. Qed.

Lemma calculate_pattern_duration_bad_duration (data : list row) (r : row)
      (tok : string) :
  In r data -> field r DURATION = inr tok -> py_float tok = None ->
  exists e, calculate_pattern_duration data = inl e.
Proof.
  intros Hin Hf Hp. rewrite calculate_pattern_duration_eq.
  destruct (start_of data) as [e|s]; cbn [bind_raises]; [eauto|].
  assert (Hd : exists e, durations_of data = inl e).
  { clear s. induction data as [|r0 rest IH]; [destruct Hin|].
    cbn [durations_of]. destruct Hin as [->|Hin].
    - rewrite Hf. cbn [bind_raises]. unfold float_. rewrite Hp. cbn. eauto.
    - destruct (field r0 DURATION) as [e|tok0]; cbn [bind_raises]; [eauto|].
      destruct (float_ tok0) as [e|d]; cbn [bind_raises]; [eauto|].
      destruct (IH Hin) as [e ->]. cbn. eauto. }
  destruct Hd as [e ->]. cbn. eauto.
Qed.

(** C6, as amended.  The tables have passed the guards.  If a field that
    the script converts does not convert (the start time of the first row
    of a table, or the pitch, the velocity or the duration of any row), the
    run ends with [ValueError].  If all of these convert, the run reaches
    its end: the start time of a row that is not the first of its table is
    not converted, and cannot make the run fail. *)
Theorem sequence_conversion_error (song_tempo : Z)
        (melody_data drum_data bass_data : list row) :
  guarded melody_data -> guarded drum_data -> guarded bass_data ->
  (unconvertible melody_data \/ unconvertible drum_data \/
   unconvertible bass_data ->
   exists sent,
     sequence song_tempo melody_data drum_data bass_data []
     = (inl ValueError, sent)) /\
  (~ (unconvertible melody_data \/ unconvertible drum_data \/
      unconvertible bass_data) ->
   exists sent,
     sequence song_tempo melody_data drum_data bass_data [] = (inr tt, sent)).
Proof.
  intros Gm Gd Gb. split.
  - intros U. rewrite sequence_run.
    destruct (calculate_pattern_duration melody_data) as [e|lm] eqn:Cm;
      [destruct (calculate_error _ _ Gm Cm) as [-> _]; eauto|].
    destruct (calculate_pattern_duration drum_data) as [e|ld] eqn:Cd;
      [destruct (calculate_error _ _ Gd Cd) as [-> _]; eauto|].
    destruct (calculate_pattern_duration bass_data) as [e|lb] eqn:Cb;
      [destruct (calculate_error _ _ Gb Cb) as [-> _]; eauto|].
    destruct (calculate_start_of _ _ Cm) as [sm Hsm].
    destruct (calculate_start_of _ _ Cd) as [sd Hsd].
    destruct (calculate_start_of _ _ Cb) as [sb Hsb].
    rewrite (send_events_run _ _ _ _ _ _ _ Hsm Hsd Hsb).
    destruct (notes_of melody_data) as [e|nm] eqn:Nm;
      [rewrite (notes_of_error_guarded _ _ Gm Nm); eauto|].
    destruct (notes_of drum_data) as [e|nd] eqn:Nd;
      [rewrite (notes_of_error_guarded _ _ Gd Nd); eauto|].
    destruct (notes_of bass_data) as [e|nb] eqn:Nb;
      [rewrite (notes_of_error_guarded _ _ Gb Nb); eauto|].
    exfalso.
    destruct U as [U|[U|U]]; revert U;
      eapply track_convertible; split; eassumption.
  - intros U.
    destruct (convertible_track melody_data) as (sm & nm & Tm); [tauto|].
    destruct (convertible_track drum_data) as (sd & nd & Td); [tauto|].
    destruct (convertible_track bass_data) as (sb & nb & Tb); [tauto|].
    rewrite (sequence_tracks _ _ _ _ _ _ _ _ _ _ [] Tm Td Tb). eauto.
Qed.

(** C10.  When the three pattern durations are computed and a row of one
    of the tables does not convert, the run ends with an exception in
    [send_events]: the tempo and the six clip messages have been sent, and
    after them the notes that precede the row that raises, and nothing
    else. *)
Theorem sequence_partial_stream (song_tempo : Z)
        (melody_data drum_data bass_data : list row) (lm ld lb : float) :
  calculate_pattern_duration melody_data = inr lm ->
  calculate_pattern_duration drum_data = inr ld ->
  calculate_pattern_duration bass_data = inr lb ->
  (exists e, notes_of melody_data = inl e) \/
  (exists e, notes_of drum_data = inl e) \/
  (exists e, notes_of bass_data = inl e) ->
  exists e notes,
    sequence song_tempo melody_data drum_data bass_data []
    = (inl e,
       [set_tempo song_tempo]
       ++ [delete_clip 0 0; create_clip 0 0 lm;
           delete_clip 1 0; create_clip 1 0 ld;
           delete_clip 2 0; create_clip 2 0 lb]
       ++ notes)%list /\
    Forall is_add_notes notes.
Proof.
  intros Cm Cd Cb H. rewrite sequence_run, Cm, Cd, Cb.
  destruct (calculate_start_of _ _ Cm) as [sm Hsm].
  destruct (calculate_start_of _ _ Cd) as [sd Hsd].
  destruct (calculate_start_of _ _ Cb) as [sb Hsb].
  rewrite (send_events_run _ _ _ _ _ _ _ Hsm Hsd Hsb).
  destruct (notes_of melody_data) as [e|nm].
  { eexists e, _. split; [reflexivity | apply note_messages_add_notes]. }
  destruct (notes_of drum_data) as [e|nd].
  { eexists e, _. split; [reflexivity|].
    apply Forall_app; split; apply note_messages_add_notes. }
  destruct (notes_of bass_data) as [e|nb].
  { eexists e, _. split; [reflexivity|].
    repeat (apply Forall_app; split); apply note_messages_add_notes. }
  destruct H as [[e H]|[[e H]|[e H]]]; discriminate H.
Qed.

(** *** The script from the text on *)

Lemma contains_occurs (sub s : string) :
  contains sub s = true <-> exists i, occurs_at sub s i.
Proof.
  induction s as [|c s IH]; cbn [contains]; rewrite orb_true_iff.
  - split.
    + intros [H|H]; [|discriminate]. exists 0%nat. apply occurs_at_O. exact H.
    + intros [i H]. left.
      assert (i = 0%nat) as ->
        by (apply occurs_at_bound in H; cbn in H; lia).
      apply occurs_at_O. exact H.
  - rewrite IH. split.
    + intros [H|[i H]].
      * exists 0%nat. apply occurs_at_O. exact H.
      * exists (S i). apply occurs_at_S. exact H.
    + intros [[|i] H].
      * left. apply occurs_at_O. exact H.
      * right. exists i. apply occurs_at_S in H. exact H.
Qed.

Lemma contains_false (sub s : string) :
  contains sub s = false <-> forall i, ~ occurs_at sub s i.
Proof.
  split.
  - intros H i Hi.
    assert (contains sub s = true) by (apply contains_occurs; eauto).
    congruence.
  - intros H. destruct (contains sub s) eqn:Hc; [|reflexivity].
    apply contains_occurs in Hc. destruct Hc as [i Hi]. destruct (H i Hi).
Qed.

(** C8.  When one of the three keywords does not occur in the text of the
    response, the script warns and exits: nothing is parsed, and no message
    is sent. *)
Theorem main_missing_section (response_text : string) :
  (forall i, ~ occurs_at MELODY response_text i) \/
  (forall i, ~ occurs_at DRUM response_text i) \/
  (forall i, ~ occurs_at BASS response_text i) ->
  main response_text = (Exited "Incomplete GPT response. Try again.", []).
Proof.
  intros H. unfold main.
  destruct H as [H|[H|H]]; apply contains_false in H; rewrite H;
    cbn [negb orb]; rewrite ?orb_true_r; reflexivity.
Qed.

End SequencerClaims.

(** ** Runs in double precision *)

Section Runs.

Import Example.

#[local] Existing Instance Binary64.numeric.

(** The tables of the complete response, and its messages. *)
Lemma example_tables :
  find_substring response MELODY DRUM
  = inr (String newline "60 0.0 0.5 100" ++ String newline "64 0.5 0.5 100"
           ++ String newline "") /\
  parse_table_to_list
    (String newline "60 0.0 0.5 100" ++ String newline "64 0.5 0.5 100"
       ++ String newline "") VALID_MIDI_NOTES = Some melody.
Proof. split; reflexivity. Qed.

Lemma sequence_stream_witness :
  sequence SONG_TEMPO melody drum bass []
  = (inr tt,
     [set_tempo 60;
      delete_clip 0 0; create_clip 0 0 one;
      delete_clip 1 0; create_clip 1 0 one;
      delete_clip 2 0; create_clip 2 0 one;
      add_notes 0 0 60 zero half 100 0;
      add_notes 0 0 64 half half 100 0;
      add_notes 1 0 36 zero one 120 0;
      add_notes 2 0 40 zero one 90 0]) /\
  main response = (Finished, snd (sequence SONG_TEMPO melody drum bass [])).
Proof.
  split; [|reflexivity].
  destruct (sequence_stream (num := Binary64.numeric)
              SONG_TEMPO melody drum bass zero zero zero
              [{| pitch := 60; velocity := 100; duration := half |};
               {| pitch := 64; velocity := 100; duration := half |}]
              [{| pitch := 36; velocity := 120; duration := one |}]
              [{| pitch := 40; velocity := 90; duration := one |}])
    as [Hstream _].
  - split; vm_compute; reflexivity.
  - split; vm_compute; reflexivity.
  - split; vm_compute; reflexivity.
  - exact Hstream.
Defined.

Lemma sequence_duration_failure_witness :
  exists e,
    sequence SONG_TEMPO melody_bad_duration drum bass []
    = (inl e, [set_tempo 60]).
Proof.
  apply (sequence_duration_failure (num := Binary64.numeric)).
  left. exists ValueError. vm_compute. reflexivity.
Defined.

(** C4, as stated, fails: the duration [abc] makes the computation of the
    pattern duration raise, and the tempo message has been sent. *)
Lemma sequence_duration_failure_counterexample :
  parse_table_to_list (String newline "60 0.0 abc 100" ++ String newline "")
    VALID_MIDI_NOTES = Some melody_bad_duration /\
  calculate_pattern_duration melody_bad_duration = inl ValueError /\
  main response_bad_duration = (Uncaught ValueError, [set_tempo 60]).
Proof. repeat split; reflexivity. Qed.

Lemma sequence_conversion_error_witness :
  (exists sent,
      sequence SONG_TEMPO melody_bad_velocity drum bass []
      = (inl ValueError, sent)) /\
  (exists sent,
      sequence SONG_TEMPO melody_bad_start drum bass [] = (inr tt, sent)).
Proof.
  assert (Gd : guarded drum) by (split; [discriminate | repeat constructor]).
  assert (Gb : guarded bass) by (split; [discriminate | repeat constructor]).
  split.
  - destruct (sequence_conversion_error (num := Binary64.numeric) SONG_TEMPO melody_bad_velocity drum bass)
      as [Hraise _]; try assumption.
    + split; [discriminate | repeat constructor].
    + apply Hraise. left. right.
      exists ["64"; "0.5"; "0.5"; "loud"], ValueError.
      split; [right; left; reflexivity | vm_compute; reflexivity].
  - destruct (sequence_conversion_error (num := Binary64.numeric) SONG_TEMPO melody_bad_start drum bass)
      as [_ Hend]; try assumption.
    + split; [discriminate | repeat constructor].
    + apply Hend. intros [U|[U|U]]; revert U.
      * apply (track_convertible (num := Binary64.numeric) _ zero
                 [{| pitch := 60; velocity := 100; duration := half |};
                  {| pitch := 64; velocity := 100; duration := half |}]).
        split; vm_compute; reflexivity.
      * apply (track_convertible (num := Binary64.numeric) _ zero
                 [{| pitch := 36; velocity := 120; duration := one |}]).
        split; vm_compute; reflexivity.
      * apply (track_convertible (num := Binary64.numeric) _ zero
                 [{| pitch := 40; velocity := 90; duration := one |}]).
        split; vm_compute; reflexivity.
Defined.

(** C6, as stated, fails: the second melody row passes the guards, its
    start time [abc] is not a number, and the run reaches its end with all
    its messages sent. *)
Lemma sequence_conversion_error_counterexample :
  parse_table_to_list
    (String newline "60 0.0 0.5 100" ++ String newline "64 abc 0.5 100"
       ++ String newline "") VALID_MIDI_NOTES = Some melody_bad_start /\
  field ["64"; "abc"; "0.5"; "100"] START_TIME = inr "abc" /\
  py_float "abc" = None /\
  fst (main response_bad_start) = Finished /\
  main response_bad_start = main response.
Proof. repeat split; reflexivity. Qed.

Lemma sequence_partial_stream_witness :
  main response_bad_velocity
  = (Uncaught ValueError,
     [set_tempo 60;
      delete_clip 0 0; create_clip 0 0 one;
      delete_clip 1 0; create_clip 1 0 one;
      delete_clip 2 0; create_clip 2 0 one;
      add_notes 0 0 60 zero half 100 0]) /\
  exists e notes,
    sequence SONG_TEMPO melody_bad_velocity drum bass []
    = (inl e,
       [set_tempo 60]
       ++ [delete_clip 0 0; create_clip 0 0 one;
           delete_clip 1 0; create_clip 1 0 one;
           delete_clip 2 0; create_clip 2 0 one]
       ++ notes)%list /\
    Forall is_add_notes notes.
Proof.
  split; [reflexivity|].
  apply (sequence_partial_stream (num := Binary64.numeric)); try (vm_compute; reflexivity).
  left. exists ValueError. vm_compute. reflexivity.
Defined.

(** C2.  The guard is meant to keep the rows whose pitch is one of the
    valid notes 30 to 90, and it tests only how the line begins.  The line
    [300 0.0 0.5 100] is kept, although 300 is not a valid note and no valid
    note is written [300]: the run reaches its end and the pitch 300 is
    sent.  The line [60abc 0.0 0.5 100] is kept too: the run sends the tempo
    and the six clip messages and then raises [ValueError] on the pitch. *)
Theorem valid_note_guard_defect :
  (~ In 300 VALID_MIDI_NOTES /\
   forall note, In note VALID_MIDI_NOTES -> str note <> "300") /\
  parse_table_to_list "300 0.0 0.5 100" VALID_MIDI_NOTES
  = Some [["300"; "0.0"; "0.5"; "100"]] /\
  main response_pitch_300
  = (Finished,
     [set_tempo 60;
      delete_clip 0 0; create_clip 0 0 half;
      delete_clip 1 0; create_clip 1 0 one;
      delete_clip 2 0; create_clip 2 0 one;
      add_notes 0 0 300 zero half 100 0;
      add_notes 1 0 36 zero one 120 0;
      add_notes 2 0 40 zero one 90 0]) /\
  parse_table_to_list "60abc 0.0 0.5 100" VALID_MIDI_NOTES
  = Some [["60abc"; "0.0"; "0.5"; "100"]] /\
  main response_pitch_60abc
  = (Uncaught ValueError,
     [set_tempo 60;
      delete_clip 0 0; create_clip 0 0 half;
      delete_clip 1 0; create_clip 1 0 one;
      delete_clip 2 0; create_clip 2 0 one]).
Proof.
  split; [|repeat split; reflexivity].
  assert (H : forallb (fun n => negb (n =? 300) && negb (String.eqb (str n) "300"))
                VALID_MIDI_NOTES = true) by (vm_compute; reflexivity).
  rewrite forallb_forall in H. split.
  - intros Hin. specialize (H _ Hin). discriminate H.
  - intros note Hin Hstr. specialize (H _ Hin).
    apply andb_true_iff in H. destruct H as [_ H].
    apply negb_true_iff, String.eqb_neq in H. exact (H Hstr).
Qed.

Lemma main_missing_section_witness :
  main response_no_drum = (Exited "Incomplete GPT response. Try again.", []).
Proof.
  apply (main_missing_section (num := Binary64.numeric)). right. left.
  apply contains_false. vm_compute. reflexivity.
Defined.

End Runs.

(** ** Exact sums in double precision *)

Section ExactSums.

Import Binary64.

Lemma digits2_pos_size (m : positive) : digits2_pos m = Pos.size m.
Proof. induction m; cbn [digits2_pos Pos.size]; congruence. Qed.

Lemma digits2_pos_log2 (m : positive) :
  Zpos (digits2_pos m) = Z.log2 (Zpos m) + 1.
Proof.
  rewrite digits2_pos_size.
  destruct m; cbn [Pos.size Z.log2]; rewrite ?Pos2Z.inj_succ; lia.
Qed.

Lemma pow2_pos (t : Z) : 0 <= t -> 0 < 2 ^ t.
Proof. intros. apply Z.pow_pos_nonneg; lia. Qed.

(** The number of digits of [m * 2^t]. *)
Lemma digits2_pos_shift (m q : positive) (t : Z) :
  0 <= t -> Zpos q = Zpos m * 2 ^ t ->
  Zpos (digits2_pos q) = Zpos (digits2_pos m) + t.
Proof.
  intros Ht Hq. rewrite !digits2_pos_log2, Hq.
  rewrite Z.log2_mul_pow2 by lia. lia.
Qed.

Lemma shift_pos_pow (m p : positive) :
  Zpos (Pos.iter xO m p) = Zpos m * 2 ^ Zpos p.
Proof.
  revert m; induction p as [p IH|p IH|]; intros m; cbn [Pos.iter].
  - rewrite Pos2Z.inj_xO, !IH.
    replace (Zpos p~1) with (Zpos p + Zpos p + 1) by lia.
    rewrite !Z.pow_add_r by lia. change (2 ^ 1) with 2. ring.
  - rewrite !IH. replace (Zpos p~0) with (Zpos p + Zpos p) by lia.
    rewrite Z.pow_add_r by lia. ring.
  - rewrite Pos2Z.inj_xO. change (2 ^ 1) with 2. ring.
Qed.

Lemma shr_1_double (m : Z) :
  0 < m -> shr_1 (exact_record (2 * m)) = exact_record m.
Proof. destruct m; intros H; try lia. reflexivity. Qed.

(** Shifting [m * 2^p] right by [p] gives [m], and nothing is lost. *)
Lemma iter_pos_shr (p : positive) (m : Z) :
  0 < m ->
  iter_pos shr_1 p (exact_record (m * 2 ^ Zpos p)) = exact_record m.
Proof.
  revert m; induction p as [p IH|p IH|]; intros m Hm; cbn [iter_pos].
  - replace (m * 2 ^ Zpos p~1) with (2 * (m * 2 ^ Zpos p * 2 ^ Zpos p)).
    + pose proof (pow2_pos (Zpos p)).
      rewrite shr_1_double by nia. rewrite IH by nia. apply IH. exact Hm.
    + replace (Zpos p~1) with (Zpos p + Zpos p + 1) by lia.
      rewrite !Z.pow_add_r by lia. change (2 ^ 1) with 2. ring.
  - replace (m * 2 ^ Zpos p~0) with (m * 2 ^ Zpos p * 2 ^ Zpos p).
    + pose proof (pow2_pos (Zpos p)). rewrite IH by nia. apply IH. exact Hm.
    + replace (Zpos p~0) with (Zpos p + Zpos p) by lia.
      rewrite Z.pow_add_r by lia. ring.
  - change (2 ^ 1) with 2. rewrite Z.mul_comm. apply shr_1_double. exact Hm.
Qed.

(** Rounding [m0 * 2^t * 2^(e0 - t)], which is the canonical double
    [m0 * 2^e0], gives that double. *)
Lemma binary_round_aux_canonical (sx : bool) (m0 : positive) (e0 t : Z) :
  bounded prec emax m0 e0 = true -> 0 <= t ->
  binary_round_aux prec emax sx (Zpos m0 * 2 ^ t) (e0 - t) loc_Exact
  = S754_finite sx m0 e0.
Proof.
  intros Hb Ht. unfold bounded, canonical_mantissa in Hb.
  apply andb_true_iff in Hb. destruct Hb as [Hc Hmax].
  apply Z.eqb_eq in Hc.
  assert (Hq : exists q, Zpos q = Zpos m0 * 2 ^ t).
  { pose proof (pow2_pos t Ht).
    destruct (Zpos m0 * 2 ^ t) as [|q|q] eqn:E; try nia. eauto. }
  destruct Hq as [q Hq]. rewrite <- Hq.
  assert (Hfst :
            shr_fexp prec emax (Zpos q) (e0 - t) loc_Exact
            = (exact_record (Zpos m0), e0)).
  { unfold shr_fexp. cbn [Zdigits2 shr_record_of_loc].
    rewrite (digits2_pos_shift m0 q t Ht Hq).
    replace (Zpos (digits2_pos m0) + t + (e0 - t))
      with (Zpos (digits2_pos m0) + e0) by lia.
    rewrite Hc. replace (e0 - (e0 - t)) with t by lia.
    unfold shr. destruct t as [|p|p]; [| |lia].
    - rewrite Z.pow_0_r, Z.mul_1_r in Hq. injection Hq as ->.
      rewrite Z.sub_0_r. reflexivity.
    - f_equal; [|lia]. change {| shr_m := Zpos q; shr_r := false; shr_s := false |}
        with (exact_record (Zpos q)).
      rewrite Hq. apply iter_pos_shr. lia. }
  assert (Hsnd :
            shr_fexp prec emax (Zpos m0) e0 loc_Exact
            = (exact_record (Zpos m0), e0)).
  { unfold shr_fexp. cbn [Zdigits2 shr_record_of_loc].
    rewrite Hc, Z.sub_diag. reflexivity. }
  unfold binary_round_aux. rewrite Hfst.
  cbn [exact_record shr_m loc_of_shr_record round_nearest_even].
  rewrite Hsnd. cbn [exact_record shr_m]. rewrite Hmax. reflexivity.
Qed.

(** [binary_round] on any writing [mx * 2^ex] of the canonical double
    [m0 * 2^e0]. *)
Lemma binary_round_canonical (sx : bool) (m0 mx : positive) (e0 ex : Z) :
  bounded prec emax m0 e0 = true ->
  Zpos mx * 2 ^ (ex - Z.min ex e0) = Zpos m0 * 2 ^ (e0 - Z.min ex e0) ->
  binary_round prec emax sx mx ex = S754_finite sx m0 e0.
Proof.
  intros Hb Hval.
  assert (Hc : fexp prec emax (Zpos (digits2_pos m0) + e0) = e0).
  { unfold bounded, canonical_mantissa in Hb.
    apply andb_true_iff in Hb. apply Z.eqb_eq. tauto. }
  assert (Hd : Zpos (digits2_pos mx) + ex = Zpos (digits2_pos m0) + e0).
  { pose proof (f_equal Z.log2 Hval) as Hl.
    rewrite !Z.log2_mul_pow2 in Hl by lia.
    rewrite !digits2_pos_log2. lia. }
  unfold binary_round. rewrite Hd, Hc. unfold shl_align.
  destruct (e0 - ex) as [|p|p] eqn:E.
  - assert (ex = e0) by lia. subst ex.
    rewrite Z.min_id, Z.sub_diag, Z.pow_0_r, !Z.mul_1_r in Hval.
    injection Hval as ->.
    pose proof (binary_round_aux_canonical sx m0 e0 0 Hb (Z.le_refl 0)) as H.
    rewrite Z.pow_0_r, Z.mul_1_r, Z.sub_0_r in H. exact H.
  - rewrite Z.min_l in Hval by lia.
    rewrite Z.sub_diag, Z.pow_0_r, Z.mul_1_r in Hval.
    pose proof (binary_round_aux_canonical sx m0 e0 (e0 - ex) Hb) as H.
    rewrite <- Hval in H. replace (e0 - (e0 - ex)) with ex in H by lia.
    apply H. lia.
  - rewrite Z.min_r in Hval by lia.
    rewrite Z.sub_diag, Z.pow_0_r, Z.mul_1_r in Hval.
    assert (Hm : Pos.iter xO mx p = m0).
    { apply Pos2Z.inj. rewrite shift_pos_pow, <- Hval. f_equal. f_equal. lia. }
    rewrite Hm.
    pose proof (binary_round_aux_canonical sx m0 e0 0 Hb (Z.le_refl 0)) as H.
    rewrite Z.pow_0_r, Z.mul_1_r, Z.sub_0_r in H. exact H.
Qed.

(** The canonical double of [n * 2^(-k)]: its exponent [e0] is at most
    [-k], and its mantissa is [n * 2^(-k - e0)]. *)
Lemma dyadic_canonical (k n : Z) :
  0 <= k <= 1074 -> 0 < n < 2 ^ 53 ->
  exists m0 e0,
    dyadic k n = S754_finite false m0 e0 /\
    bounded prec emax m0 e0 = true /\
    e0 <= - k /\ Zpos m0 = n * 2 ^ (- k - e0).
Proof.
  intros Hk Hn.
  set (e0 := fexp prec emax (Z.log2 n + 1 + - k)).
  assert (Hlog : Z.log2 n < 53) by (apply Z.log2_lt_pow2; lia).
  pose proof (Z.log2_nonneg n) as Hlog0.
  assert (He0 : e0 <= - k /\ e0 <= emax - prec).
  { unfold e0, fexp, SpecFloat.emin, prec, emax. lia. }
  assert (Hq : exists m0, Zpos m0 = n * 2 ^ (- k - e0)).
  { pose proof (pow2_pos (- k - e0)).
    destruct (n * 2 ^ (- k - e0)) as [|q|q] eqn:E; try nia. eauto. }
  destruct Hq as [m0 Hm0]. exists m0, e0.
  assert (Hb : bounded prec emax m0 e0 = true).
  { unfold bounded, canonical_mantissa. apply andb_true_iff. split.
    - apply Z.eqb_eq. rewrite digits2_pos_log2, Hm0.
      rewrite Z.log2_mul_pow2 by lia.
      replace (- k - e0 + Z.log2 n + 1 + e0) with (Z.log2 n + 1 + - k) by lia.
      reflexivity.
    - apply Z.leb_le. lia. }
  split; [|split; [exact Hb | split; [lia | exact Hm0]]].
  unfold dyadic. destruct n as [|pn|pn]; try lia. cbn [binary_normalize].
  apply binary_round_canonical; [exact Hb|].
  rewrite Z.min_r by lia. rewrite Z.sub_diag, Z.pow_0_r, Z.mul_1_r.
  symmetry. exact Hm0.
Qed.

Lemma shl_align_fst (m : positive) (e ez : Z) :
  ez <= e -> Zpos (fst (shl_align m e ez)) = Zpos m * 2 ^ (e - ez).
Proof.
  intros H. unfold shl_align. destruct (ez - e) as [|p|p] eqn:E; cbn [fst].
  - replace (e - ez) with 0 by lia. rewrite Z.pow_0_r. lia.
  - lia.
  - rewrite shift_pos_pow. f_equal. f_equal. lia.
Qed.

(** The sum of two doubles of the grid [2^(-k)] is exact as long as it
    stays below [2^53 * 2^(-k)]. *)
Lemma add_dyadic (k a b : Z) :
  0 <= k <= 1074 -> 0 <= a -> 0 <= b -> a + b < 2 ^ 53 ->
  add (dyadic k a) (dyadic k b) = dyadic k (a + b).
Proof.
  intros Hk Ha Hb Hab.
  destruct (Z.eq_dec a 0) as [->|Ha0].
  { rewrite Z.add_0_l. destruct (Z.eq_dec b 0) as [->|Hb0]; [reflexivity|].
    destruct (dyadic_canonical k b Hk) as (mb & eb & -> & _); [lia|].
    reflexivity. }
  destruct (Z.eq_dec b 0) as [->|Hb0].
  { rewrite Z.add_0_r.
    destruct (dyadic_canonical k a Hk) as (ma & ea & -> & _); [lia|].
    reflexivity. }
  destruct (dyadic_canonical k a Hk) as (ma & ea & -> & _ & Hea & Hma); [lia|].
  destruct (dyadic_canonical k b Hk) as (mb & eb & -> & _ & Heb & Hmb); [lia|].
  destruct (dyadic_canonical k (a + b) Hk) as (mc & ec & -> & Hbc & Hec & Hmc);
    [lia|].
  unfold add, SFadd. cbn [cond_Zopp].
  set (ez := Z.min ea eb).
  assert (Hez : ez <= ea /\ ez <= eb) by (unfold ez; lia).
  rewrite !shl_align_fst by lia.
  assert (Hsum : Zpos ma * 2 ^ (ea - ez) + Zpos mb * 2 ^ (eb - ez)
                 = (a + b) * 2 ^ (- k - ez)).
  { rewrite Hma, Hmb.
    assert (Ea : 2 ^ (- k - ez) = 2 ^ (- k - ea) * 2 ^ (ea - ez))
      by (rewrite <- Z.pow_add_r by lia; f_equal; lia).
    assert (Eb : 2 ^ (- k - ez) = 2 ^ (- k - eb) * 2 ^ (eb - ez))
      by (rewrite <- Z.pow_add_r by lia; f_equal; lia).
    transitivity (a * 2 ^ (- k - ez) + b * 2 ^ (- k - ez)); [|ring].
    rewrite Ea at 1. rewrite Eb. ring. }
  rewrite Hsum.
  pose proof (pow2_pos (- k - ez)).
  destruct ((a + b) * 2 ^ (- k - ez)) as [|s|s] eqn:Es; try nia.
  cbn [binary_normalize]. apply binary_round_canonical; [exact Hbc|].
  rewrite <- Es, Hmc.
  set (lo := Z.min ez ec).
  assert (Hlo : lo <= ez /\ lo <= ec) by (unfold lo; lia).
  replace ((a + b) * 2 ^ (- k - ez) * 2 ^ (ez - lo))
    with ((a + b) * 2 ^ ((- k - ez) + (ez - lo)))
    by (rewrite Z.pow_add_r by lia; ring).
  replace ((a + b) * 2 ^ (- k - ec) * 2 ^ (ec - lo))
    with ((a + b) * 2 ^ ((- k - ec) + (ec - lo)))
    by (rewrite Z.pow_add_r by lia; ring).
  f_equal. f_equal. lia.
Qed.

(** Adding doubles of the grid one after the other gives the double of the
    sum. *)
Lemma fold_add_dyadic (k : Z) (ns : list Z) (a : Z) :
  0 <= k <= 1074 -> 0 <= a -> Forall (Z.le 0) ns ->
  a + fold_right Z.add 0 ns < 2 ^ 53 ->
  fold_left add (map (dyadic k) ns) (dyadic k a)
  = dyadic k (a + fold_right Z.add 0 ns).
Proof.
  intros Hk Ha Hns. revert a Ha.
  induction Hns as [|n ns Hn Hns IH]; intros a Ha Hsum;
    cbn [map fold_left fold_right] in *.
  - rewrite Z.add_0_r. reflexivity.
  - assert (Hrest : 0 <= fold_right Z.add 0 ns).
    { clear -Hns. induction Hns; cbn [fold_right]; lia. }
    rewrite add_dyadic by lia. rewrite IH by lia. f_equal. lia.
Qed.


#[local] Existing Instance Binary64.numeric.




End ExactSums.

(** ** More on the extraction of the tables *)

Section Extraction.

Lemma occurs_at_append_r (p t sub : string) (j : nat) :
  occurs_at sub t j -> occurs_at sub (p ++ t) (String.length p + j).
Proof.
  intros (pre & post & -> & <-). exists (p ++ pre), post.
  rewrite append_assoc, length_append. split; reflexivity.
Qed.

Lemma occurs_at_append_inv (p t sub : string) (j : nat) :
  (String.length p <= j)%nat -> occurs_at sub (p ++ t) j ->
  occurs_at sub t (j - String.length p).
Proof.
  intros Hj H. rewrite <- (skip_append p t).
  apply occurs_at_skip.
  - rewrite length_append. lia.
  - replace (String.length p + (j - String.length p))%nat with j by lia.
    exact H.
Qed.

Lemma last_occurrence_append (p t sub : string) (from i : nat) :
  last_occurrence sub t from i ->
  last_occurrence sub (p ++ t) (String.length p + from) (String.length p + i).
Proof.
  intros (Ho & Hf & Hmax). split; [apply occurs_at_append_r; exact Ho|].
  split; [lia|]. intros j Hj Hfj.
  apply occurs_at_append_inv in Hj; [|lia].
  specialize (Hmax _ Hj). lia.
Qed.

Lemma last_occurrence_append_0 (p t sub : string) (i : nat) :
  last_occurrence sub t 0 i ->
  last_occurrence sub (p ++ t) 0 (String.length p + i).
Proof.
  intros (Ho & _ & Hmax). split; [apply occurs_at_append_r; exact Ho|].
  split; [lia|]. intros j Hj _.
  destruct (Nat.le_gt_cases (String.length p) j) as [Hle|Hlt]; [|lia].
  apply occurs_at_append_inv in Hj; [|exact Hle].
  specialize (Hmax _ Hj). lia.
Qed.

Lemma substring_append_r (p t : string) (a m : nat) :
  substring (String.length p + a) m (p ++ t) = substring a m t.
Proof. induction p as [|c p IH]; [reflexivity | exact IH]. Qed.

Lemma slice_append_r (p t : string) (a b : nat) :
  slice (String.length p + a) (String.length p + b) (p ++ t) = slice a b t.
Proof.
  unfold slice.
  replace (String.length p + b - (String.length p + a))%nat with (b - a)%nat
    by lia.
  apply substring_append_r.
Qed.

(** [find_substring] raises nothing. *)
Lemma find_substring_inr (string start end_ : String.string) :
  exists r, find_substring string start end_ = inr r.
Proof.
  unfold find_substring.
  destruct (rindex string start 0) as [e|i] eqn:Hi; cbn [bind_raises].
  - apply rindex_inl in Hi. destruct Hi as [-> _]. eauto.
  - destruct (rindex string end_ (i + String.length start)) as [e|k] eqn:Hk;
      cbn [bind_raises]; [|eauto].
    apply rindex_inl in Hk. destruct Hk as [-> _]. eauto.
Qed.

(** The result of [find_substring], when it is a slice of the text: the
    text around it. *)
Lemma find_substring_cases (string start end_ : String.string) :
  find_substring string start end_ = inr "" \/
  exists i pre mid post,
    last_occurrence start string 0 i /\
    find_substring string start end_ = inr mid /\
    string = pre ++ start ++ mid ++ end_ ++ post /\
    String.length pre = i.
Proof.
  destruct (rindex string start 0) as [e|i] eqn:Hi.
  - left. apply find_substring_no_start. apply rindex_inl in Hi. intros j.
    apply (proj2 Hi). lia.
  - rewrite (find_substring_unfold _ _ _ _ Hi).
    apply rindex_inr in Hi.
    destruct (rindex string end_ (i + String.length start)) as [e|k] eqn:Hk.
    + left. apply rindex_inl in Hk. destruct Hk as [-> _]. reflexivity.
    + right. apply rindex_inr in Hk.
      destruct Hi as ((pre & rest & Hs & Hpre) & Hi).
      destruct Hk as ((pre2 & post & Hs2 & Hpre2) & Hle & _).
      assert (Hcut : (pre ++ start) ++ rest = pre2 ++ end_ ++ post)
        by (rewrite append_assoc; congruence).
      apply append_eq_split in Hcut; [|rewrite length_append; lia].
      destruct Hcut as (mid & Hp2 & Hrest).
      assert (Hmid : slice (i + String.length start) k string = mid).
      { rewrite Hs, Hrest, <- append_assoc.
        replace (i + String.length start)%nat
          with (String.length (pre ++ start))
          by (rewrite length_append; lia).
        replace k with (String.length (pre ++ start) + String.length mid)%nat
          by (rewrite <- length_append, <- Hp2; exact Hpre2).
        apply slice_append. }
      exists i, pre, mid, post. rewrite Hmid.
      split; [|split; [reflexivity | split; [congruence | exact Hpre]]].
      split; [exists pre, rest; split; assumption | exact Hi].
Qed.

(** X1.  [find_substring] raises nothing for any text and any keywords;
    what it returns is a part of the text, and it is empty when the start
    keyword does not occur. *)
Theorem find_substring_total (string start end_ : String.string) :
  exists r,
    find_substring string start end_ = inr r /\
    (exists pre post, string = pre ++ r ++ post) /\
    ((forall j, ~ occurs_at start string j) -> r = "").
Proof.
  destruct (find_substring_cases string start end_)
    as [H|(i & pre & mid & post & Hlast & H & Hs & _)].
  - exists "". split; [exact H|]. split; [|reflexivity].
    exists string, "". rewrite append_nil_r. reflexivity.
  - exists mid. split; [exact H|]. split.
    + exists (pre ++ start), (end_ ++ post). rewrite append_assoc. exact Hs.
    + intros Hno. destruct Hlast as (Ho & _). destruct (Hno i Ho).
Qed.

(** X2.  What [find_substring] returns holds no occurrence of the start
    keyword, when this keyword is not empty: the text is cut after the last
    occurrence. *)
Theorem find_substring_excludes_start (string start end_ r : String.string) :
  start <> "" -> find_substring string start end_ = inr r ->
  forall j, ~ occurs_at start r j.
Proof.
  intros Hne Hr j Hj.
  assert (Hlen : (0 < String.length start)%nat)
    by (destruct start; [congruence | cbn; lia]).
  destruct (find_substring_cases string start end_)
    as [H|(i & pre & mid & post & Hlast & H & Hs & Hpre)].
  - rewrite H in Hr. injection Hr as <-.
    apply occurs_at_bound in Hj. cbn in Hj. lia.
  - rewrite H in Hr. injection Hr as <-.
    destruct Hj as (a & b & Hmid & Ha).
    destruct Hlast as (_ & _ & Hmax).
    assert (Hocc : occurs_at start string (i + String.length start + j)).
    { exists (pre ++ start ++ a), (b ++ end_ ++ post). split.
      - rewrite Hs, Hmid, !append_assoc. reflexivity.
      - rewrite !length_append. lia. }
    specialize (Hmax _ Hocc). lia.
Qed.

Lemma find_substring_excludes_start_witness :
  find_substring "Melody-A-Melody-B-Drum" "Melody" "Drum" = inr "-B-" /\
  forall j, ~ occurs_at "Melody" "-B-" j.
Proof.
  split; [reflexivity|].
  apply (find_substring_excludes_start
           "Melody-A-Melody-B-Drum" "Melody" "Drum" "-B-").
  - discriminate.
  - reflexivity.
Defined.

(** A text put before a text in which the start keyword occurs does not
    change what [find_substring] returns. *)
Lemma find_substring_prefix (p t start end_ : String.string) :
  (exists i, occurs_at start t i) ->
  find_substring (p ++ t) start end_ = find_substring t start end_.
Proof.
  intros [i0 Hocc].
  destruct (rindex t start 0) as [e|i] eqn:Hi.
  { apply rindex_inl in Hi. destruct (proj2 Hi i0); [lia | exact Hocc]. }
  rewrite (find_substring_unfold _ _ _ _ Hi).
  apply rindex_inr in Hi.
  pose proof (rindex_last _ _ _ _ (last_occurrence_append_0 p _ _ _ Hi)) as Hpi.
  rewrite (find_substring_unfold _ _ _ _ Hpi).
  replace (String.length p + i + String.length start)%nat
    with (String.length p + (i + String.length start))%nat by lia.
  destruct (rindex t end_ (i + String.length start)) as [e|k] eqn:Hk.
  - apply rindex_inl in Hk. destruct Hk as [-> Hno].
    destruct (rindex (p ++ t) end_
                (String.length p + (i + String.length start)))
      as [e|k] eqn:Hpk.
    + apply rindex_inl in Hpk. destruct Hpk as [-> _]. reflexivity.
    + apply rindex_inr in Hpk. destruct Hpk as (Ho & Hle & _).
      apply occurs_at_append_inv in Ho; [|lia].
      destruct (Hno (k - String.length p)%nat); [lia | exact Ho].
  - apply rindex_inr in Hk.
    rewrite (rindex_last _ _ _ _ (last_occurrence_append p _ _ _ _ Hk)).
    rewrite slice_append_r. reflexivity.
Qed.

Lemma prefix_skip (p s : string) :
  prefix p s = true -> s = p ++ skip (String.length p) s.
Proof.
  intros H. apply prefix_inv in H. destruct H as [post ->].
  rewrite skip_append. reflexivity.
Qed.

(** What [after_first] returns, and when it raises. *)
Lemma after_first_cases (sep s : string) :
  match after_first sep s with
  | inr rest =>
      exists pre,
        s = pre ++ sep ++ rest /\
        forall j, occurs_at sep s j -> (String.length pre <= j)%nat
  | inl e => e = IndexError /\ forall j, ~ occurs_at sep s j
  end.
Proof.
  induction s as [|c s IH]; cbn [after_first].
  - destruct (prefix sep "") eqn:Hp.
    + exists "". cbn [append String.length].
      split; [apply prefix_skip; exact Hp | intros; lia].
    + split; [reflexivity|]. intros j Hj.
      assert (j = 0%nat) as ->
        by (apply occurs_at_bound in Hj; cbn in Hj; lia).
      apply occurs_at_O in Hj. congruence.
  - destruct (prefix sep (String c s)) eqn:Hp.
    + exists "". cbn [append String.length].
      split; [apply prefix_skip; exact Hp | intros; lia].
    + destruct (after_first sep s) as [e|rest].
      * destruct IH as [-> Hno]. split; [reflexivity|].
        intros [|j] Hj.
        -- apply occurs_at_O in Hj. congruence.
        -- apply occurs_at_S in Hj. exact (Hno j Hj).
      * destruct IH as (pre & Hs & Hfirst). exists (String c pre).
        split; [cbn [append]; congruence|].
        intros [|j] Hj.
        -- apply occurs_at_O in Hj. congruence.
        -- apply occurs_at_S in Hj. specialize (Hfirst j Hj).
           cbn [String.length]. lia.
Qed.

Lemma append_inj_length (a b x y : string) :
  a ++ x = b ++ y -> String.length a = String.length b -> a = b /\ x = y.
Proof.
  intros H Hl. apply append_eq_split in H; [|lia].
  destruct H as (m & -> & ->). rewrite length_append in Hl.
  destruct m; cbn in Hl; [|lia]. rewrite append_nil_r. split; reflexivity.
Qed.

(** X3.  The text taken for the last table, [text.split(sep, 1)[1]], is
    what follows the first occurrence of the keyword: [rest] is returned
    exactly when the text reads [pre ++ sep ++ rest] and the keyword does
    not occur before the end of [pre].  [IndexError] is raised exactly when
    the keyword does not occur. *)
Theorem after_first_spec (sep s : string) :
  (forall rest,
      after_first sep s = inr rest <->
      exists pre,
        s = pre ++ sep ++ rest /\
        forall j, occurs_at sep s j -> (String.length pre <= j)%nat) /\
  (after_first sep s = inl IndexError <-> forall j, ~ occurs_at sep s j).
Proof.
  pose proof (after_first_cases sep s) as Hc. split.
  - intros rest. split.
    + intros H. rewrite H in Hc. exact Hc.
    + intros (pre & Hs & Hfirst).
      assert (Hocc : occurs_at sep s (String.length pre))
        by (exists pre, rest; split; [exact Hs | reflexivity]).
      destruct (after_first sep s) as [e|rest'].
      * destruct Hc as [_ Hno]. destruct (Hno _ Hocc).
      * destruct Hc as (pre' & Hs' & Hfirst').
        assert (Hocc' : occurs_at sep s (String.length pre'))
          by (exists pre', rest'; split; [exact Hs' | reflexivity]).
        specialize (Hfirst _ Hocc'). specialize (Hfirst' _ Hocc).
        assert (Heq : pre' ++ sep ++ rest' = pre ++ sep ++ rest) by congruence.
        apply append_inj_length in Heq; [|lia]. destruct Heq as [_ Heq].
        apply append_inj_length in Heq; [|reflexivity].
        destruct Heq as [_ ->]. reflexivity.
  - split.
    + intros H. rewrite H in Hc. exact (proj2 Hc).
    + intros Hno. destruct (after_first sep s) as [e|rest].
      * destruct Hc as [-> _]. reflexivity.
      * destruct Hc as (pre & Hs & _).
        destruct (Hno (String.length pre)). exists pre, rest.
        split; [exact Hs | reflexivity].
Qed.

Lemma after_first_occurs (sep s : string) (i : nat) :
  occurs_at sep s i -> exists rest, after_first sep s = inr rest.
Proof.
  intros Hi. pose proof (after_first_cases sep s) as H.
  destruct (after_first sep s) as [e|rest]; [|eauto].
  destruct H as [_ Hno]. destruct (Hno i Hi).
Qed.

(** An occurrence of the keyword cannot begin before the one that
    [after_first] cuts at. *)
Lemma after_first_bound (sep s rest : string) (j : nat) :
  after_first sep s = inr rest -> occurs_at sep s j ->
  (String.length s - String.length sep - String.length rest <= j)%nat.
Proof.
  intros H Hj. pose proof (after_first_cases sep s) as Hc.
  rewrite H in Hc. destruct Hc as (pre & Hs & Hfirst).
  specialize (Hfirst j Hj).
  assert (String.length s
          = (String.length pre + (String.length sep + String.length rest))%nat)
    by (rewrite Hs at 1; rewrite !length_append; reflexivity).
  lia.
Qed.

Lemma after_first_append (sep p t : string) :
  (forall j, occurs_at sep (p ++ t) j -> (String.length p <= j)%nat) ->
  after_first sep (p ++ t) = after_first sep t.
Proof.
  induction p as [|c p IH]; intros H; [reflexivity|].
  cbn [append after_first].
  destruct (prefix sep (String c (p ++ t))) eqn:Hp.
  - apply occurs_at_O in Hp. specialize (H _ Hp). cbn in H. lia.
  - apply IH. intros j Hj.
    assert (Hs : occurs_at sep (String c p ++ t) (S j))
      by (apply occurs_at_S; exact Hj).
    specialize (H _ Hs). cbn in H. lia.
Qed.

End Extraction.

(** ** More on the rows of a table *)

Section Rows.

(** The rows that [parse_table_to_list] makes of a list of lines. *)
Lemma rows_of_parse (data : string) (valid_midi_notes : list Z) :
  rows_of (parse_table_to_list data valid_midi_notes)
  = filter (fun i => (4 <=? List.length i)%nat)
      (map re_split_tab_space
         (filter
            (fun row =>
               negb (String.eqb row "") &&
               existsb (fun note => startswith row (str note))
                 valid_midi_notes)
            (split_lines data))).
Proof.
  destruct (String.eqb_spec data "") as [->|Hne]; [reflexivity|].
  rewrite (parse_table_to_list_nonempty _ _ Hne). reflexivity.
Qed.

Lemma split_on_not_nil (sep : ascii -> bool) (s : string) :
  split_on sep s <> [].
Proof.
  destruct s as [|c s]; cbn [split_on]; [discriminate|].
  destruct (sep c); [discriminate|].
  destruct (split_on sep s); discriminate.
Qed.

Lemma split_on_append (sep : ascii -> bool) (a b : string) (c : ascii) :
  sep c = true ->
  split_on sep (a ++ String c b) = (split_on sep a ++ split_on sep b)%list.
Proof.
  intros Hc. induction a as [|d a IH]; cbn [append split_on app].
  - rewrite Hc. reflexivity.
  - destruct (sep d); [rewrite IH; reflexivity|].
    rewrite IH. pose proof (split_on_not_nil sep a) as Hne.
    destruct (split_on sep a) as [|f fs]; [congruence | reflexivity].
Qed.

Lemma rows_of_parse_append (a b : string) (valid_midi_notes : list Z) :
  rows_of (parse_table_to_list (a ++ String newline b) valid_midi_notes)
  = (rows_of (parse_table_to_list a valid_midi_notes)
     ++ rows_of (parse_table_to_list b valid_midi_notes))%list.
Proof.
  rewrite !rows_of_parse. unfold split_lines.
  rewrite split_on_append by reflexivity.
  rewrite filter_app, map_app, filter_app. reflexivity.
Qed.

(** X5.  The rows of two texts joined by a newline are the rows of the
    first followed by the rows of the second: every line is judged alone,
    and the order of the lines is kept.  An empty text has no row. *)
Theorem parse_table_to_list_append (a b : string) (valid_midi_notes : list Z) :
  rows_of (parse_table_to_list (a ++ String newline b) valid_midi_notes)
  = (rows_of (parse_table_to_list a valid_midi_notes)
     ++ rows_of (parse_table_to_list b valid_midi_notes))%list /\
  rows_of (parse_table_to_list "" valid_midi_notes) = [].
Proof. split; [apply rows_of_parse_append | reflexivity]. Qed.

Lemma free_of_split_on (p sep : ascii -> bool) (s : string) :
  free_of p s = true ->
  Forall (fun f => free_of p f = true) (split_on sep s).
Proof.
  induction s as [|c s IH]; cbn [split_on free_of]; intros H.
  - repeat constructor.
  - apply andb_true_iff in H. destruct H as [Hc Hs]. specialize (IH Hs).
    destruct (sep c); [constructor; [reflexivity | exact IH]|].
    destruct (split_on sep s) as [|f fs]; [repeat constructor; cbn;
      rewrite Hc; reflexivity|].
    inversion IH as [|? ? Hf Hfs]; subst. constructor; [|exact Hfs].
    cbn [free_of]. rewrite Hc, Hf. reflexivity.
Qed.

Lemma split_on_free_fields (sep : ascii -> bool) (s : string) :
  Forall (fun f => free_of sep f = true) (split_on sep s).
Proof.
  induction s as [|c s IH]; cbn [split_on]; [repeat constructor|].
  destruct (sep c) eqn:Hc; [constructor; [reflexivity | exact IH]|].
  destruct (split_on sep s) as [|f fs];
    [repeat constructor; cbn; rewrite Hc; reflexivity|].
  inversion IH as [|? ? Hf Hfs]; subst. constructor; [|exact Hfs].
  cbn [free_of]. rewrite Hc, Hf. reflexivity.
Qed.

(** The first field of a line that begins with a string without
    separator begins with this string. *)
Lemma split_on_head (sep : ascii -> bool) (a b : string) :
  free_of sep a = true ->
  exists f fs, split_on sep (a ++ b) = (a ++ f) :: fs.
Proof.
  intros Ha. induction a as [|c a IH]; cbn [append].
  - pose proof (split_on_not_nil sep b) as Hne.
    destruct (split_on sep b) as [|f fs]; [congruence | eauto].
  - cbn [free_of] in Ha. apply andb_true_iff in Ha. destruct Ha as [Hc Ha].
    apply negb_true_iff in Hc. destruct (IH Ha) as (f & fs & Hs).
    cbn [split_on]. rewrite Hc, Hs. eauto.
Qed.

(** A row of the script's table: tokens, at least four, the first of which
    begins with the writing of a valid note. *)
Lemma parse_row_shape (data : string) (rows : list row) (r : row) :
  parse_table_to_list data VALID_MIDI_NOTES = Some rows -> In r rows ->
  Forall (fun f => token f = true) r /\ (4 <= List.length r)%nat /\
  exists note rest fs,
    In note VALID_MIDI_NOTES /\ r = (str note ++ rest) :: fs.
Proof.
  intros Hp Hin.
  apply (parse_table_to_list_rows _ _ _ Hp) in Hin.
  destruct Hin as (line & Hline & (_ & note & rest & Hnote & Hl) & -> & Hlen).
  split; [|split; [exact Hlen|]].
  - assert (Hnl : free_of (Ascii.eqb newline) line = true).
    { pose proof (split_on_free_fields (Ascii.eqb newline) data) as Hall.
      rewrite Forall_forall in Hall. exact (Hall line Hline). }
    pose proof (split_on_free_fields is_tab_or_space line) as H1.
    pose proof (free_of_split_on (Ascii.eqb newline) is_tab_or_space line Hnl)
      as H2.
    rewrite Forall_forall in *. intros f Hf. unfold token.
    fold (re_split_tab_space line) in H1, H2.
    rewrite (H1 f Hf), (H2 f Hf). reflexivity.
  - destruct (str_note_token note Hnote) as [Htok _].
    apply andb_true_iff in Htok. destruct Htok as [Hsp _].
    subst line. unfold re_split_tab_space.
    destruct (split_on_head is_tab_or_space (str note) rest Hsp)
      as (f & fs & ->).
    exists note, f, fs. split; [exact Hnote | reflexivity].
Qed.

(** X6.  Every row that [parse_table_to_list] returns for the valid notes
    of the script has at least four fields, all without tab, space or
    newline, and its first field begins with the decimal writing of a
    valid note: no row is empty and no pitch field is. *)
Theorem parse_table_to_list_shape (data : string) (rows : list row) :
  parse_table_to_list data VALID_MIDI_NOTES = Some rows ->
  Forall
    (fun r =>
       Forall (fun f => token f = true) r /\ (4 <= List.length r)%nat /\
       exists note rest fs,
         In note VALID_MIDI_NOTES /\ r = (str note ++ rest) :: fs) rows.
Proof.
  intros Hp. apply Forall_forall. intros r Hin.
  exact (parse_row_shape data rows r Hp Hin).
Qed.

Lemma parse_table_to_list_shape_witness :
  Forall
    (fun r =>
       Forall (fun f => token f = true) r /\ (4 <= List.length r)%nat /\
       exists note rest fs,
         In note VALID_MIDI_NOTES /\ r = (str note ++ rest) :: fs)
    [["60abc"; ""; "0.5"; "100"]].
Proof.
  apply (parse_table_to_list_shape "60abc  0.5 100"). reflexivity.
Defined.

Lemma concat_join (f : string) (fs : list string) :
  String.concat " " (f :: fs) = join_fields f (map (fun x => (space, x)) fs).
Proof.
  revert f; induction fs as [|g fs IH]; intros f; [reflexivity|].
  cbn [String.concat map join_fields]. rewrite <- IH. reflexivity.
Qed.

(** A line without newline that passes the first guard gives its fields,
    if they are four at least. *)
Lemma rows_of_parse_line (line : string) (valid_midi_notes : list Z) :
  free_of (Ascii.eqb newline) line = true -> candidate valid_midi_notes line ->
  rows_of (parse_table_to_list line valid_midi_notes)
  = if (4 <=? List.length (re_split_tab_space line))%nat
    then [re_split_tab_space line] else [].
Proof.
  intros Hnl Hc. rewrite rows_of_parse. unfold split_lines.
  rewrite (split_on_free _ _ Hnl). cbn [filter].
  apply guard_candidate in Hc. rewrite Hc. cbn [map filter]. reflexivity.
Qed.

Lemma unparse_row_parse (r : row) :
  Forall (fun f => token f = true) r -> (4 <= List.length r)%nat ->
  (exists note rest fs, In note VALID_MIDI_NOTES /\ r = (str note ++ rest) :: fs) ->
  rows_of (parse_table_to_list (unparse_row r) VALID_MIDI_NOTES) = [r].
Proof.
  intros Htok Hlen (note & rest & fs & Hnote & ->).
  unfold unparse_row. rewrite concat_join.
  inversion Htok as [|? ? Hf0 Hfs]; subst.
  apply andb_true_iff in Hf0. destruct Hf0 as [Hsp0 Hnl0].
  assert (Hsplit :
            re_split_tab_space
              (join_fields (str note ++ rest) (map (fun x => (space, x)) fs))
            = (str note ++ rest) :: fs).
  { unfold re_split_tab_space. rewrite split_on_join.
    - rewrite map_map. cbn [snd]. rewrite map_id. reflexivity.
    - exact Hsp0.
    - apply Forall_map. eapply Forall_impl; [|exact Hfs].
      intros f Hf. cbn [fst snd]. apply andb_true_iff in Hf.
      split; [reflexivity | tauto]. }
  rewrite rows_of_parse_line.
  - rewrite Hsplit. apply Nat.leb_le in Hlen. rewrite Hlen. reflexivity.
  - apply free_of_join; [exact Hnl0|].
    apply Forall_map. eapply Forall_impl; [|exact Hfs].
    intros f Hf. cbn [fst snd]. apply andb_true_iff in Hf.
    split; [reflexivity | tauto].
  - destruct (str_note_token note Hnote) as [_ Hne]. split.
    + destruct (str note) as [|c s] eqn:Hs; [congruence|].
      destruct fs; discriminate.
    + destruct fs as [|g fs]; cbn [map join_fields].
      * exists note, rest. auto.
      * exists note, (rest ++ String space
                        (join_fields g (map (fun x => (space, x)) fs))).
        split; [exact Hnote | apply append_assoc].
Qed.

Lemma unparse_parse (rows : list row) :
  Forall
    (fun r =>
       Forall (fun f => token f = true) r /\ (4 <= List.length r)%nat /\
       exists note rest fs,
         In note VALID_MIDI_NOTES /\ r = (str note ++ rest) :: fs) rows ->
  rows_of (parse_table_to_list (unparse rows) VALID_MIDI_NOTES) = rows.
Proof.
  induction 1 as [|r rows (Htok & Hlen & Hnote) Hrows IH]; [reflexivity|].
  unfold unparse in *. destruct rows as [|r' rows'].
  - cbn [map String.concat]. apply unparse_row_parse; assumption.
  - change (String.concat (String newline "")
              (map unparse_row (r :: r' :: rows')))
      with (unparse_row r
            ++ String newline
                 (String.concat (String newline "")
                    (map unparse_row (r' :: rows')))).
    rewrite rows_of_parse_append, IH, unparse_row_parse by assumption.
    reflexivity.
Qed.

(** X7.  Writing the rows that [parse_table_to_list] returned with one
    space between the fields and one newline between the rows, and parsing
    this text, gives the same rows again. *)
Theorem parse_table_to_list_unparse (data : string) (rows : list row) :
  parse_table_to_list data VALID_MIDI_NOTES = Some rows ->
  rows_of (parse_table_to_list (unparse rows) VALID_MIDI_NOTES) = rows.
Proof.
  intros Hp. apply unparse_parse. apply Forall_forall. intros r Hin.
  exact (parse_row_shape data rows r Hp Hin).
Qed.

(** A text with a line of prose, a tab and an empty line, and the text
    written from its rows. *)
Lemma parse_table_to_list_unparse_witness :
  unparse [["60"; "0.0"; "0.5"; "100"]; ["64"; "0.5"; "0.5"; "100"; "x"]]
  = "60 0.0 0.5 100" ++ String newline "64 0.5 0.5 100 x" /\
  rows_of
    (parse_table_to_list
       (unparse [["60"; "0.0"; "0.5"; "100"]; ["64"; "0.5"; "0.5"; "100"; "x"]])
       VALID_MIDI_NOTES)
  = [["60"; "0.0"; "0.5"; "100"]; ["64"; "0.5"; "0.5"; "100"; "x"]].
Proof.
  split; [reflexivity|].
  apply (parse_table_to_list_unparse
           ("The table:" ++ String newline ("60" ++ String tab "0.0 0.5 100")
              ++ String newline "" ++ String newline "64 0.5 0.5 100 x")).
  reflexivity.
Defined.

End Rows.

(** ** More on the runs *)

Section RunFacts.

Context {num : Numeric}.

Lemma note_messages_on_track (track : Z) (ns : list (note float)) (pointer : float) :
  Forall (on_track track) (note_messages track ns pointer).
Proof.
  revert pointer; induction ns as [|n ns IH]; intros pointer;
    cbn [note_messages]; constructor; [cbn; auto | apply IH].
Qed.

(** X8.  Whatever the three tables are, the first message of the
    sequencer is the tempo.  Either nothing follows it, or the six clip
    messages follow it, for the tracks 0, 1 and 2 in this order, and after
    them only notes: those of the track 0, then those of the track 1, then
    those of the track 2, each for the clip 0 and not muted.  No note is
    sent before the three clips are recreated. *)
Theorem sequence_order (song_tempo : Z) (melody_data drum_data bass_data : list row) :
  exists r rest,
    sequence song_tempo melody_data drum_data bass_data []
    = (r, set_tempo song_tempo :: rest) /\
    (rest = [] \/
     exists lm ld lb n0 n1 n2,
       rest = (clip_messages 0 lm ++ clip_messages 1 ld ++ clip_messages 2 lb
               ++ n0 ++ n1 ++ n2)%list /\
       Forall (on_track 0) n0 /\ Forall (on_track 1) n1 /\
       Forall (on_track 2) n2).
Proof.
  rewrite sequence_run.
  destruct (calculate_pattern_duration melody_data) as [e|lm] eqn:Cm;
    [eexists _, []; split; [reflexivity | left; reflexivity]|].
  destruct (calculate_pattern_duration drum_data) as [e|ld] eqn:Cd;
    [eexists _, []; split; [reflexivity | left; reflexivity]|].
  destruct (calculate_pattern_duration bass_data) as [e|lb] eqn:Cb;
    [eexists _, []; split; [reflexivity | left; reflexivity]|].
  destruct (calculate_start_of _ _ Cm) as [sm Hsm].
  destruct (calculate_start_of _ _ Cd) as [sd Hsd].
  destruct (calculate_start_of _ _ Cb) as [sb Hsb].
  rewrite (send_events_run _ _ _ _ _ _ _ Hsm Hsd Hsb).
  destruct (notes_of melody_data) as [e|nm].
  { eexists _, _. split; [reflexivity|]. right.
    exists lm, ld, lb, (note_messages 0 (converted melody_data) sm), [], [].
    rewrite !app_nil_r. cbn [app clip_messages].
    repeat split; try constructor. apply note_messages_on_track. }
  destruct (notes_of drum_data) as [e|nd].
  { eexists _, _. split; [reflexivity|]. right.
    exists lm, ld, lb, (note_messages 0 (converted melody_data) sm),
      (note_messages 1 (converted drum_data) sd), [].
    rewrite !app_nil_r. cbn [app clip_messages].
    repeat split; try constructor; apply note_messages_on_track. }
  eexists _, _. split; [reflexivity|]. right.
  exists lm, ld, lb, (note_messages 0 (converted melody_data) sm),
    (note_messages 1 (converted drum_data) sd),
    (note_messages 2 (converted bass_data) sb).
  cbn [app clip_messages].
  repeat split; apply note_messages_on_track.
Qed.

(** The sequencer on tables that passed the guards: it reaches its end or
    raises [ValueError], and the tempo has been sent. *)
Lemma sequence_guarded (song_tempo : Z) (melody_data drum_data bass_data : list row) :
  guarded melody_data -> guarded drum_data -> guarded bass_data ->
  exists rest,
    sequence song_tempo melody_data drum_data bass_data []
    = (inr tt, set_tempo song_tempo :: rest) \/
    sequence song_tempo melody_data drum_data bass_data []
    = (inl ValueError, set_tempo song_tempo :: rest).
Proof.
  intros Gm Gd Gb. rewrite sequence_run.
  destruct (calculate_pattern_duration melody_data) as [e|lm] eqn:Cm;
    [destruct (calculate_error _ _ Gm Cm) as [-> _]; exists []; right;
     reflexivity|].
  destruct (calculate_pattern_duration drum_data) as [e|ld] eqn:Cd;
    [destruct (calculate_error _ _ Gd Cd) as [-> _]; exists []; right;
     reflexivity|].
  destruct (calculate_pattern_duration bass_data) as [e|lb] eqn:Cb;
    [destruct (calculate_error _ _ Gb Cb) as [-> _]; exists []; right;
     reflexivity|].
  destruct (calculate_start_of _ _ Cm) as [sm Hsm].
  destruct (calculate_start_of _ _ Cd) as [sd Hsd].
  destruct (calculate_start_of _ _ Cb) as [sb Hsb].
  rewrite (send_events_run _ _ _ _ _ _ _ Hsm Hsd Hsb).
  destruct (notes_of melody_data) as [e|nm] eqn:Nm;
    [rewrite (notes_of_error_guarded _ _ Gm Nm); eexists; right; reflexivity|].
  destruct (notes_of drum_data) as [e|nd] eqn:Nd;
    [rewrite (notes_of_error_guarded _ _ Gd Nd); eexists; right; reflexivity|].
  destruct (notes_of bass_data) as [e|nb] eqn:Nb;
    [rewrite (notes_of_error_guarded _ _ Gb Nb); eexists; right; reflexivity|].
  eexists; left; reflexivity.
Qed.

(** What [parse_table_to_list] returns is falsy, or a table that passed
    the guards. *)
Lemma parse_guarded (data : string) (valid_midi_notes : list Z) :
  falsy (parse_table_to_list data valid_midi_notes) = false ->
  guarded (rows_of (parse_table_to_list data valid_midi_notes)).
Proof.
  intros Hf.
  destruct (parse_table_to_list data valid_midi_notes) as [rows|] eqn:Hp;
    [|discriminate].
  cbn [rows_of]. split; [destruct rows; [discriminate | discriminate]|].
  apply Forall_forall. intros r Hin.
  apply (parse_table_to_list_rows _ _ _ Hp) in Hin.
  destruct Hin as (line & _ & _ & _ & Hlen). exact Hlen.
Qed.

(** X9.  The four ways in which a run of the script ends: with the
    warning of an incomplete response and no message; with the warning of
    an incorrect format and no message; at its end; with [ValueError].  In
    the last two cases the messages sent begin with the tempo 60.  No other
    exception ends the script, and no message is sent after a warning. *)
Theorem main_outcomes (response_text : string) :
  main response_text = (Exited "Incomplete GPT response. Try again.", []) \/
  main response_text
  = (Exited "Incorrect GPT response MIDI note format. Try again.", []) \/
  (exists rest, main response_text = (Finished, set_tempo 60 :: rest)) \/
  (exists rest, main response_text = (Uncaught ValueError, set_tempo 60 :: rest)).
Proof.
  unfold main.
  destruct (contains MELODY response_text) eqn:Hm; [|left; reflexivity].
  destruct (contains DRUM response_text) eqn:Hd; [|left; reflexivity].
  destruct (contains BASS response_text) eqn:Hb; [|left; reflexivity].
  cbn [negb orb]. right.
  destruct (find_substring_inr response_text MELODY DRUM) as [tm ->].
  destruct (find_substring_inr response_text DRUM BASS) as [td ->].
  apply contains_occurs in Hb. destruct Hb as [i Hb].
  destruct (after_first_occurs _ _ _ Hb) as [tb ->].
  cbn [bind_raises].
  destruct (falsy (parse_table_to_list tm VALID_MIDI_NOTES)) eqn:Fm;
    [left; reflexivity|].
  destruct (falsy (parse_table_to_list td VALID_MIDI_NOTES)) eqn:Fd;
    [left; reflexivity|].
  destruct (falsy (parse_table_to_list tb VALID_MIDI_NOTES)) eqn:Fb;
    [left; reflexivity|].
  cbn [orb]. right.
  destruct (sequence_guarded SONG_TEMPO _ _ _ (parse_guarded _ _ Fm)
              (parse_guarded _ _ Fd) (parse_guarded _ _ Fb))
    as [rest [H|H]]; rewrite H; [left | right]; exists rest; reflexivity.
Qed.

(** X4.  A text put before the response does not change the run, when
    the three keywords occur in the response and the text put before brings
    no occurrence of [Bass]: the first two tables are cut at the last
    occurrences of their keywords, the third at the first occurrence of
    [Bass]. *)
Theorem main_prefix (p response_text : string) :
  (exists i, occurs_at MELODY response_text i) ->
  (exists i, occurs_at DRUM response_text i) ->
  (exists i, occurs_at BASS response_text i) ->
  (forall j, occurs_at BASS (p ++ response_text) j -> (String.length p <= j)%nat) ->
  main (p ++ response_text) = main response_text.
Proof.
  intros Hm Hd Hb Hfirst. unfold main.
  assert (Hc : forall sub,
             (exists i, occurs_at sub response_text i) ->
             contains sub response_text = true /\
             contains sub (p ++ response_text) = true).
  { intros sub [i Hi]. split; apply contains_occurs; [eauto|].
    exists (String.length p + i)%nat. apply occurs_at_append_r. exact Hi. }
  destruct (Hc _ Hm) as [-> ->]. destruct (Hc _ Hd) as [-> ->].
  destruct (Hc _ Hb) as [-> ->]. cbn [negb orb].
  rewrite (find_substring_prefix p _ MELODY DRUM Hm).
  rewrite (find_substring_prefix p _ DRUM BASS Hd).
  rewrite (after_first_append BASS p _ Hfirst). reflexivity.
Qed.

(** *** What the sequencer reads *)

Lemma same_rows_notes (data data' : list row) :
  Forall2
    (fun r r' =>
       field r PITCH = field r' PITCH /\
       field r VELOCITY = field r' VELOCITY /\
       field r DURATION = field r' DURATION) data data' ->
  notes_of data = notes_of data' /\ converted data = converted data' /\
  durations_of data = durations_of data'.
Proof.
  induction 1 as [|r r' l l' (Hp & Hv & Hd) _ (IHn & IHc & IHd)];
    [repeat split|].
  assert (Hn : note_of_row r = note_of_row r')
    by (unfold note_of_row; rewrite Hp, Hv, Hd; reflexivity).
  cbn [notes_of converted durations_of].
  rewrite Hn, IHn, IHc, Hd, IHd. repeat split.
Qed.

Lemma same_reads_start (data data' : list row) :
  same_reads data data' -> start_of data = start_of data'.
Proof.
  intros [Hrows Hstart]. unfold start_of, getitem.
  destruct Hrows; [reflexivity|].
  cbn [nth_error of_option bind_raises hd] in *. rewrite Hstart. reflexivity.
Qed.

Lemma same_reads_calculate (data data' : list row) :
  same_reads data data' ->
  calculate_pattern_duration data = calculate_pattern_duration data'.
Proof.
  intros H. rewrite !calculate_pattern_duration_eq.
  rewrite (same_reads_start _ _ H).
  destruct (same_rows_notes _ _ (proj1 H)) as (_ & _ & ->). reflexivity.
Qed.

Lemma same_reads_send_track (track : Z) (data data' : list row)
      (sent : list (message float)) :
  same_reads data data' ->
  send_track track data sent = send_track track data' sent.
Proof.
  intros H. rewrite !send_track_run.
  pose proof (same_reads_start _ _ H) as Hs.
  destruct (same_rows_notes _ _ (proj1 H)) as (Hn & Hc & _).
  destruct H as [Hrows _]. destruct Hrows; [reflexivity|].
  rewrite Hs, Hn, Hc. reflexivity.
Qed.

(** X10.  The run depends on the tables only through what is read from
    them: the pitch, the velocity and the duration of every row, and the
    start time of the first row of each table.  Tables that agree on these
    give the same messages and the same outcome, so the start times of the
    other rows and the fields after the fourth have no effect. *)
Theorem sequence_same_reads (song_tempo : Z)
        (melody_data melody_data' drum_data drum_data' bass_data bass_data'
         : list row) (sent : list (message float)) :
  same_reads melody_data melody_data' -> same_reads drum_data drum_data' ->
  same_reads bass_data bass_data' ->
  sequence song_tempo melody_data drum_data bass_data sent
  = sequence song_tempo melody_data' drum_data' bass_data' sent.
Proof.
  intros Hm Hd Hb. rewrite !sequence_run.
  rewrite (same_reads_calculate _ _ Hm), (same_reads_calculate _ _ Hd),
    (same_reads_calculate _ _ Hb).
  destruct (calculate_pattern_duration melody_data') as [e|lm]; [reflexivity|].
  destruct (calculate_pattern_duration drum_data') as [e|ld]; [reflexivity|].
  destruct (calculate_pattern_duration bass_data') as [e|lb]; [reflexivity|].
  unfold send_events, bind.
  rewrite (same_reads_send_track 0 _ _ _ Hm).
  destruct (send_track 0 melody_data' _) as [[e|[]] sent1]; [reflexivity|].
  rewrite (same_reads_send_track 1 _ _ _ Hd).
  destruct (send_track 1 drum_data' _) as [[e|[]] sent2]; [reflexivity|].
  apply same_reads_send_track. exact Hb.
Qed.

(** X11.  The length of the clip of a track is the end of its last note,
    rounded to 4 digits: the pointer that the last [add_notes] of the track
    carries plus the duration of this note is the number that
    [calculate_pattern_duration] rounds. *)
Theorem clip_length_last_note (track : Z) (data : list row) (s : float)
        (init : list (note float)) (n : note float) :
  track_of data s (init ++ [n]) ->
  exists pointer,
    nth_error (snd (send_track track data [])) (List.length init)
    = Some (add_notes track 0 (pitch n) pointer (duration n) (velocity n) 0) /\
    List.length (snd (send_track track data [])) = S (List.length init) /\
    calculate_pattern_duration data
    = inr (py_round (float_add pointer (duration n)) 4).
Proof.
  intros T. pose proof (track_pattern_duration _ _ _ T) as Hc.
  destruct T as [Hs Hn]. rewrite send_track_run.
  pose proof (start_of_nonempty _ _ Hs) as Hne.
  destruct data as [|row0 rest]; [congruence|].
  rewrite Hs, Hn, (converted_notes _ _ Hn). cbn [snd app].
  exists (fold_left float_add (map duration init) s). split; [|split].
  - rewrite (note_messages_nth track (init ++ [n]) s (List.length init) n).
    + rewrite firstn_app, firstn_all, Nat.sub_diag. cbn [firstn].
      rewrite app_nil_r. reflexivity.
    + rewrite nth_error_app2, Nat.sub_diag by lia. reflexivity.
  - rewrite note_messages_length, length_app. cbn [List.length]. lia.
  - rewrite Hc. unfold pattern_duration.
    rewrite map_app, fold_left_app. reflexivity.
Qed.

End RunFacts.

(** ** The size of a finished run *)

Section FinishedRuns.

Context {num : Numeric}.

(** X13.  When the sequencer reaches its end, it has sent seven messages
    and one message per row of the three tables, and every field that it
    reads has converted. *)
Theorem sequence_finished (song_tempo : Z)
        (melody_data drum_data bass_data : list row)
        (sent : list (message float)) :
  sequence song_tempo melody_data drum_data bass_data [] = (inr tt, sent) ->
  List.length sent
  = (7 + List.length melody_data + List.length drum_data
     + List.length bass_data)%nat /\
  ~ unconvertible melody_data /\ ~ unconvertible drum_data /\
  ~ unconvertible bass_data.
Proof.
  intros H. rewrite sequence_run in H.
  destruct (calculate_pattern_duration melody_data) as [e|lm] eqn:Cm;
    [discriminate|].
  destruct (calculate_pattern_duration drum_data) as [e|ld] eqn:Cd;
    [discriminate|].
  destruct (calculate_pattern_duration bass_data) as [e|lb] eqn:Cb;
    [discriminate|].
  destruct (calculate_start_of _ _ Cm) as [sm Hsm].
  destruct (calculate_start_of _ _ Cd) as [sd Hsd].
  destruct (calculate_start_of _ _ Cb) as [sb Hsb].
  rewrite (send_events_run _ _ _ _ _ _ _ Hsm Hsd Hsb) in H.
  destruct (notes_of melody_data) as [e|nm] eqn:Nm; [discriminate|].
  destruct (notes_of drum_data) as [e|nd] eqn:Nd; [discriminate|].
  destruct (notes_of bass_data) as [e|nb] eqn:Nb; [discriminate|].
  injection H as <-.
  rewrite (converted_notes _ _ Nm), (converted_notes _ _ Nd),
    (converted_notes _ _ Nb).
  split.
  - cbn [app clip_messages List.length]. rewrite ?length_app.
    cbn [List.length]. rewrite ?length_app, !note_messages_length.
    rewrite (notes_of_length _ _ Nm), (notes_of_length _ _ Nd),
      (notes_of_length _ _ Nb). lia.
  - repeat split; eapply track_convertible; split; eassumption.
Qed.

End FinishedRuns.

(** ** More runs in double precision *)

Section MoreRuns.

Import Example Binary64.

#[local] Existing Instance Binary64.numeric.

Lemma find_substring_total_witness :
  exists r, find_substring "60 0.5 Drum" "Melody" "Drum" = inr r /\ r = "".
Proof.
  destruct (find_substring_total "60 0.5 Drum" "Melody" "Drum")
    as (r & Hr & _ & Hno).
  exists r. split; [exact Hr|]. apply Hno.
  apply contains_false. reflexivity.
Defined.

(** The response after a sentence that names the first two tables. *)
Lemma main_prefix_witness :
  main ("Here are Melody and Drum." ++ String newline response)
  = main response.
Proof.
  apply (main_prefix (num := Binary64.numeric)
           "Here are Melody and Drum." (String newline response)).
  - apply contains_occurs. reflexivity.
  - apply contains_occurs. reflexivity.
  - apply contains_occurs. reflexivity.
  - intros j Hj.
    assert (Ha : after_first BASS
                   ("Here are Melody and Drum." ++ String newline response)
                 = inr (String newline "40 0.0 1.0 90")) by reflexivity.
    pose proof (after_first_bound BASS _ _ j Ha Hj) as H.
    vm_compute in H. vm_compute. lia.
Defined.

(** With [Bass] in the sentence put before, the third table is cut there
    and the run differs. *)
Lemma main_prefix_bass :
  main ("Melody, Drum and Bass follow." ++ String newline response)
  <> main response.
Proof. vm_compute. discriminate. Qed.

Lemma sequence_same_reads_witness :
  sequence SONG_TEMPO
    [["60"; "0.0"; "0.5"; "100"; "loud"]; ["64"; "later"; "0.5"; "100"]]
    drum bass []
  = sequence SONG_TEMPO melody drum bass [].
Proof.
  assert (Hrefl : forall data : list row, same_reads data data).
  { intros data. split; [|reflexivity].
    induction data; constructor; auto. }
  apply (sequence_same_reads (num := Binary64.numeric)); try apply Hrefl.
  split; [|reflexivity]. repeat constructor.
Defined.

Lemma clip_length_last_note_witness :
  exists pointer,
    nth_error (snd (send_track 0 melody [])) 1
    = Some (add_notes 0 0 64 pointer half 100 0) /\
    List.length (snd (send_track 0 melody [])) = 2%nat /\
    calculate_pattern_duration melody = inr (round (add pointer half) 4).
Proof.
  apply (clip_length_last_note (num := Binary64.numeric) 0 melody zero
           [{| pitch := 60; velocity := 100; duration := half |}]
           {| pitch := 64; velocity := 100; duration := half |}).
  split; vm_compute; reflexivity.
Defined.

Lemma sum_firstn (ns : list Z) (j : nat) :
  Forall (Z.le 0) ns ->
  0 <= fold_right Z.add 0 (firstn j ns) <= fold_right Z.add 0 ns /\
  Forall (Z.le 0) (firstn j ns).
Proof.
  intros H; revert j; induction H as [|n ns Hn _ IH]; intros [|j];
    cbn [firstn fold_right]; try (split; [lia | constructor]).
  - assert (0 <= fold_right Z.add 0 ns)
      by (specialize (IH 0%nat); cbn [firstn fold_right] in IH; lia).
    split; [lia | constructor].
  - destruct (IH j) as [Hs Hf]. split; [lia | constructor; assumption].
Qed.

(** X12.  When the first start time and the durations of a track are
    non-negative multiples of a power of two [2^(-k)] whose sum is below
    [2^53 * 2^(-k)], the pointer of every note is exact: the message of the
    row [j] carries the double of the start time plus the durations of the
    rows before it, with no rounding error accumulated. *)
Theorem pointers_exact (track k n0 : Z) (ns : list Z) (data : list row)
        (notes : list (note spec_float)) :
  0 <= k <= 1074 -> 0 <= n0 -> Forall (Z.le 0) ns ->
  n0 + fold_right Z.add 0 ns < 2 ^ 53 ->
  track_of data (dyadic k n0) notes ->
  map duration notes = map (dyadic k) ns ->
  forall j n,
    nth_error notes j = Some n ->
    nth_error (snd (send_track track data [])) j
    = Some (add_notes track 0 (pitch n)
              (dyadic k (n0 + fold_right Z.add 0 (firstn j ns)))
              (duration n) (velocity n) 0).
Proof.
  intros Hk Hn0 Hns Hsum [Hs Hn] Hd j n Hj.
  rewrite send_track_run.
  pose proof (start_of_nonempty _ _ Hs) as Hne.
  destruct data as [|row0 rest]; [congruence|].
  rewrite Hs, Hn, (converted_notes _ _ Hn). cbn [snd app].
  rewrite (note_messages_nth (num := Binary64.numeric) track notes _ j n Hj).
  cbn [float float_add numeric] in *.
  rewrite <- firstn_map, Hd, firstn_map.
  destruct (sum_firstn ns j Hns) as [Hle Hf]. rewrite fold_add_dyadic by (assumption || lia).
  reflexivity.
Qed.

(** The melody of the example: durations of a half, pointers 0.0 and
    0.5. *)
Lemma pointers_exact_witness :
  nth_error (snd (send_track 0 melody [])) 1
  = Some (add_notes 0 0 64 (dyadic 1 1) half 100 0) /\
  dyadic 1 1 = half.
Proof.
  split; [|reflexivity].
  refine (pointers_exact 0 1 0 [1; 1] melody
            [{| pitch := 60; velocity := 100; duration := half |};
             {| pitch := 64; velocity := 100; duration := half |}]
            _ _ _ _ _ _ 1%nat
            {| pitch := 64; velocity := 100; duration := half |} _).
  - lia.
  - lia.
  - repeat constructor; lia.
  - reflexivity.
  - split; vm_compute; reflexivity.
  - reflexivity.
  - reflexivity.
Defined.

Lemma sequence_finished_witness :
  List.length (snd (sequence SONG_TEMPO melody drum bass [])) = 11%nat /\
  ~ unconvertible melody.
Proof.
  destruct (sequence_finished (num := Binary64.numeric) SONG_TEMPO melody drum
              bass (snd (sequence SONG_TEMPO melody drum bass [])))
    as (Hlen & Hm & _).
  - vm_compute. reflexivity.
  - split; [exact Hlen | exact Hm].
Defined.

End MoreRuns.
